(** * Verification of the text heuristics of [main.py]

    The service exposes [POST /analyze], which computes a one-line summary
    ([_heuristic_summary]) and a list of action items ([_extract_actions])
    from free text.  This development embeds both functions, the handler
    [analyze], and the fragments of the Python runtime they rely on
    ([str] methods and the [re] module), and proves properties about them.

    Python [str] values are sequences of Unicode code points; they are
    modelled as lists of code points ([N]).  Calls that may raise
    ([m.group(2).lower()] on a failed match) live in the [option] monad,
    [None] standing for the raised exception. *)

From Stdlib Require Import NArith Ascii String.
From stdpp Require Import base tactics option list gmap.

Local Open Scope N_scope.

(** ** Python [str] *)

Module Py.

Abbreviation char := N (only parsing).
Abbreviation str := (list N) (only parsing).

(** A Rocq string literal (ASCII) read as a Python [str]. *)
Definition lit (s : string) : str :=
  map N_of_ascii (list_ascii_of_string s).

(** [Py_UNICODE_ISSPACE]: the characters [str.isspace], [str.strip()] and
    the [\s] class of [re] (on [str] patterns) agree on. *)
Definition is_space (c : char) : bool :=
  ((9 <=? c) && (c <=? 13)) || ((28 <=? c) && (c <=? 32))
  || (c =? 133) || (c =? 160) || (c =? 5760)
  || ((8192 <=? c) && (c <=? 8202))
  || (c =? 8232) || (c =? 8233) || (c =? 8239) || (c =? 8287)
  || (c =? 12288).

(** [Py_UNICODE_ISLINEBREAK]: the line boundaries of [str.splitlines]. *)
Definition is_linebreak (c : char) : bool :=
  ((10 <=? c) && (c <=? 13)) || ((28 <=? c) && (c <=? 30))
  || (c =? 133) || (c =? 8232) || (c =? 8233).

Definition CR : char := 13.
Definition LF : char := 10.
Definition SPACE : char := 32.

(** Membership of a character in the argument of [str.strip(chars)]. *)
Definition in_chars (chars : str) (c : char) : bool :=
  existsb (N.eqb c) chars.

Fixpoint lstrip_by (p : char -> bool) (s : str) : str :=
  match s with
  | [] => []
  | c :: t => if p c then lstrip_by p t else s
  end.

Definition rstrip_by (p : char -> bool) (s : str) : str :=
  reverse (lstrip_by p (reverse s)).

Definition strip_by (p : char -> bool) (s : str) : str :=
  rstrip_by p (lstrip_by p s).

(** [s.strip()] *)
Definition strip (s : str) : str := strip_by is_space s.

(** [s.strip(chars)] *)
Definition strip_chars (chars s : str) : str := strip_by (in_chars chars) s.

(** Truth value of a [str] or a [list]: non-empty. *)
Definition truthy {A} (s : list A) : bool :=
  match s with [] => false | _ => true end.

(** [s.startswith(pre)] *)
Fixpoint startswith (s pre : str) : bool :=
  match pre, s with
  | [], _ => true
  | _ :: _, [] => false
  | a :: pre', c :: s' => (c =? a) && startswith s' pre'
  end.

(** [s.endswith(suf)] *)
Definition endswith (s suf : str) : bool :=
  startswith (reverse s) (reverse suf).

(** [k in s] for strings: [k] occurs as a substring of [s]. *)
Fixpoint contains (k s : str) : bool :=
  startswith s k || match s with [] => false | _ :: t => contains k t end.

(** [s.splitlines()]: [cur] is the line being read; [after_cr] records that
    the previous character was a carriage return, so that a line feed
    directly after it belongs to the same boundary. *)
Fixpoint splitlines_go (after_cr : bool) (cur : str) (s : str) : list str :=
  match s with
  | [] => match cur with [] => [] | _ => [cur] end
  | c :: t =>
      if after_cr && (c =? LF) then splitlines_go false cur t
      else if is_linebreak c then cur :: splitlines_go (c =? CR) [] t
      else splitlines_go false (cur ++ [c]) t
  end.

Definition splitlines (s : str) : list str := splitlines_go false [] s.

(** Lower-casing of an ASCII code point. *)
Definition ascii_lower (c : char) : char :=
  if (65 <=? c) && (c <=? 90) then c + 32 else c.

Definition is_ascii (c : char) : Prop := c < 128.

(** [str.lower] follows the Unicode case tables of the interpreter, which
    are not part of the program.  It is taken as an interface: any function
    that lower-cases ASCII text character by character. *)
Class Lower := {
  lower : str -> str;
  lower_ascii : forall s, Forall is_ascii s -> lower s = map ascii_lower s
}.

(** The instance that leaves every character outside ASCII unchanged; it
    agrees with the interpreter on ASCII text. *)
#[export] Instance AsciiLower : Lower | 100 := {|
  lower := map ascii_lower;
  lower_ascii := fun s _ => eq_refl
|}.

End Py.

Export Py.

(** ** The [re] module: a backtracking matcher *)

Module Re.

(** The constructs the three patterns of the program use.  Every repetition
    in them is over a single-character class. *)
Inductive regex :=
| Bol                                                   (* ^ *)
| Chars (l : str)                                       (* literal text *)
| Class_ (p : char -> bool)                             (* [...] or \s *)
| Repeat (p : char -> bool) (lo : nat) (hi : option nat) (* greedy {lo,hi}; + is {1,} *)
| Cat (r1 r2 : regex)
| Maybe (r : regex)                                     (* greedy ? *)
| Group (n : nat) (r : regex).                          (* n-th ( ... ) *)

(** A point of the search: the offset [pos] in the subject, the text
    [rest] still ahead, and the groups captured so far (latest first). *)
Record mstate := MState {
  pos : nat;
  rest : str;
  groups : list (nat * str)
}.

Definition advance (k : nat) (st : mstate) : mstate :=
  MState (pos st + k)%nat (drop k (rest st)) (groups st).

Definition set_group (n : nat) (g : str) (st : mstate) : mstate :=
  MState (pos st) (rest st) ((n, g) :: groups st).

(** Length of the longest prefix whose characters all satisfy [p]. *)
Fixpoint run_length (p : char -> bool) (s : str) : nat :=
  match s with
  | c :: t => if p c then S (run_length p t) else O
  | [] => O
  end.

(** [hi, hi-1, ..., lo]: the repetition counts a greedy quantifier tries,
    in order. *)
Fixpoint countdown (lo hi : nat) : list nat :=
  if decide (hi < lo)%nat then []
  else hi :: match hi with O => [] | S h => countdown lo h end.

Definition cap (hi : option nat) (n : nat) : nat :=
  match hi with Some h => min h n | None => n end.

(** All the ways [r] matches from [st], in the order a backtracking matcher
    tries them: the head is the match the engine reports. *)
Fixpoint run (r : regex) (st : mstate) : list mstate :=
  match r with
  | Bol => if decide (pos st = O) then [st] else []
  | Chars l => if startswith (rest st) l then [advance (length l) st] else []
  | Class_ p =>
      match rest st with
      | c :: _ => if p c then [advance 1 st] else []
      | [] => []
      end
  | Repeat p lo hi =>
      (fun k => advance k st) <$> countdown lo (cap hi (run_length p (rest st)))
  | Cat r1 r2 => run r1 st ≫= run r2
  | Maybe r => run r st ++ [st]
  | Group n r =>
      (fun st' => set_group n (take (pos st' - pos st) (rest st)) st') <$> run r st
  end.

(** [re.match(r, s)] *)
Definition re_match (r : regex) (s : str) : option mstate :=
  head (run r (MState 0 s [])).

(** [re.search(r, s)]: the first offset, from the left, with a match. *)
Fixpoint search_from (r : regex) (i : nat) (s : str) : option mstate :=
  match head (run r (MState i s [])) with
  | Some m => Some m
  | None => match s with [] => None | _ :: t => search_from r (S i) t end
  end.

Definition re_search (r : regex) (s : str) : option mstate :=
  search_from r 0 s.

(** [m.group(n)]; [None] when the group took no part in the match. *)
Fixpoint assoc (n : nat) (l : list (nat * str)) : option str :=
  match l with
  | [] => None
  | (k, g) :: t => if decide (k = n) then Some g else assoc n t
  end.

Definition group (n : nat) (m : mstate) : option str := assoc n (groups m).

(** [re.sub(r"\s+", " ", s)]: every maximal run of whitespace becomes one
    space.  [in_ws] tells that the previous character was whitespace. *)
Fixpoint sub_ws (in_ws : bool) (s : str) : str :=
  match s with
  | [] => []
  | c :: t =>
      if is_space c then (if in_ws then sub_ws true t else SPACE :: sub_ws true t)
      else c :: sub_ws false t
  end.

End Re.

Export Re.

(** ** The program: [main.py] *)

Module Main.

Record AnalyzeRequest := {
  text : str;
  lang : option str          (* Optional[str] = "en" *)
}.

Record AnalyzeResponse := {
  summary : str;
  actions : list str
}.

(** [s or d] on a [str]. *)
Definition or_else (s d : str) : str := if truthy s then s else d.

(** [o or d] on an [Optional[str]]. *)
Definition opt_or_else (o : option str) (d : str) : str :=
  match o with Some s => or_else s d | None => d end.

(** The class [[.?!]]. *)
Definition punct (c : char) : bool := (c =? 46) || (c =? 63) || (c =? 33).

(** The class [[a-zA-Z]]. *)
Definition is_alpha (c : char) : bool :=
  ((97 <=? c) && (c <=? 122)) || ((65 <=? c) && (c <=? 90)).

(** [r"([^.?!]{10,200}[.?!])"] *)
Definition sentence_re : regex :=
  Group 1 (Cat (Repeat (fun c => negb (punct c)) 10 (Some 200%nat)) (Class_ punct)).

(** [r"^(please\s+)?([a-zA-Z]+)"] *)
Definition token_re : regex :=
  Cat (Cat Bol (Maybe (Group 1 (Cat (Chars (lit "please")) (Repeat is_space 1 None)))))
      (Group 2 (Repeat is_alpha 1 None)).

(** [r"^(please\s+)?([a-zA-Z]+)(\s+)[A-Za-z]"] *)
Definition imperative_re : regex :=
  Cat (Cat token_re (Group 3 (Repeat is_space 1 None))) (Class_ is_alpha).

Definition action_keywords : list str := lit <$> [
  "schedule"; "reschedule"; "meeting"; "review"; "submit"; "report"; "call";
  "notify"; "send"; "prepare"; "follow up"; "follow-up"; "remind"; "escalate";
  "approve"; "circulate"; "assign"; "deadline"; "arrange"; "brief"
]%string.

(** The characters of [" -•\t"]: space, hyphen, bullet (U+2022), tab. *)
Definition bullet_chars : str := [32; 45; 8226; 9].

Definition no_content : str := lit "No content provided.".
Definition telugu_tag : str := lit "[Telugu] ".
Definition fallback : str :=
  lit "Review the message and assign to the concerned department.".

(** [cleaned = re.sub(r"\s+", " ", text).strip()] *)
Definition cleaned (text : str) : str := strip (sub_ws false text).

Section WithLower.
Context `{Lower}.

(** [prefix = "[Telugu] " if (lang or "en").lower().startswith("te") else ""] *)
Definition prefix_for (lang : str) : str :=
  if startswith (lower (or_else lang (lit "en"))) (lit "te")
  then telugu_tag else [].

Definition _heuristic_summary (text lang : str) : option str :=
  let cleaned := cleaned text in
  if negb (truthy cleaned) then Some no_content
  else
    let prefix := prefix_for lang in
    let m := re_search sentence_re cleaned in
    base ← match m with
           | Some m => strip <$> group 1 m
           | None => Some (strip (take 150 cleaned))
           end;
    Some (prefix ++ base).

(** [any(k in low for k in action_keywords)] *)
Definition keyword_hit (line : str) : bool :=
  let low := lower line in
  existsb (fun k => contains k low) action_keywords.

(** The imperative-verb heuristic: whether the loop body appends [line]
    once no keyword matched. *)
Definition imperative (line : str) : option bool :=
  match re_match imperative_re line with
  | None => Some false
  | Some _ =>
      m ← re_match token_re line;
      g ← group 2 m;
      let token := lower g in
      Some (endswith token (lit "e") || endswith token (lit "d")
            || endswith token (lit "n") || endswith token (lit "y"))
  end.

(** One iteration of [for line in lines]: does it append [line]? *)
Definition records (line : str) : option bool :=
  if keyword_hit line then Some true else imperative line.

(** [for line in lines: ...], threading the list [actions]. *)
Fixpoint scan_lines (lines : list str) (actions : list str) : option (list str) :=
  match lines with
  | [] => Some actions
  | line :: lines' =>
      records line ≫= fun b : bool =>
      scan_lines lines' (if b then actions ++ [line] else actions)
  end.

(** [for a in actions: ...], threading [seen] and [deduped]. *)
Fixpoint dedup_loop (actions : list str) (seen : gset str) (deduped : list str)
  : list str :=
  match actions with
  | [] => deduped
  | a :: actions' =>
      let key := lower a in
      if decide (key ∈ seen) then dedup_loop actions' seen deduped
      else dedup_loop actions' ({[ key ]} ∪ seen) (deduped ++ [a])
  end.

(** [[l.strip(" -•\t") for l in text.splitlines() if l.strip()]] *)
Definition stripped_lines (text : str) : list str :=
  strip_chars bullet_chars
    <$> filter (fun l : str => truthy (strip l) = true) (splitlines text).

Definition _extract_actions (text : str) : option (list str) :=
  let lines := stripped_lines text in
  actions ← scan_lines lines [];
  let deduped := dedup_loop actions ∅ [] in
  let deduped :=
    if negb (truthy deduped) && truthy (strip text)
    then [fallback] else deduped in
  Some (take 10 deduped).

Definition analyze (req : AnalyzeRequest) : option AnalyzeResponse :=
  summary ← _heuristic_summary (text req) (opt_or_else (lang req) (lit "en"));
  actions ← _extract_actions (text req);
  Some {| summary := summary; actions := actions |}.

End WithLower.

End Main.

Export Main.

(** ** The diagnostic endpoint: [test_database]

    [GET /test] looks at the world outside the program: the [database]
    module it tries to import, the object [db] found there, and the process
    environment.  The embedding takes that world as an argument. *)

Module Diag.

(** Exceptions, as far as the [except] clauses tell them apart:
    [ImportError] (and its subclasses), any other [Exception], and the
    exceptions outside [Exception] ([KeyboardInterrupt], [SystemExit]). *)
Inductive exc_class := ImportErrorC | OtherExceptionC | BaseOnlyC.

Record exc := Exc {
  exc_cls : exc_class;
  exc_str : str              (* str(e) *)
}.

(** The outcome of an evaluation: a value, or a raised exception. *)
Inductive outcome (A : Type) :=
| Ret (a : A)
| Raise (e : exc).
Arguments Ret {A} a.
Arguments Raise {A} e.

(** The object [db], as far as the endpoint looks at it.  [db_name] is what
    reading the attribute [name] gives: a value, no such attribute
    ([Ret None]: [hasattr] answers [False]), or an exception other than
    [AttributeError], which [hasattr] lets through. *)
Record db_object := {
  db_name : outcome (option str);
  db_list_collection_names : outcome (list str)
}.

Record world := {
  import_db : outcome (option db_object);   (* from database import db; None is db = None *)
  environ : gmap (list N) (list N)          (* os.environ *)
}.

(** The dictionary [response]; its keys never change. *)
Record db_response := {
  backend : str;
  database : str;
  database_url : option str;
  database_name : option str;
  connection_status : str;
  collections : list str
}.

Definition set_database (v : str) (r : db_response) : db_response :=
  {| backend := backend r; database := v; database_url := database_url r;
     database_name := database_name r;
     connection_status := connection_status r; collections := collections r |}.

Definition set_database_url (v : option str) (r : db_response) : db_response :=
  {| backend := backend r; database := database r; database_url := v;
     database_name := database_name r;
     connection_status := connection_status r; collections := collections r |}.

Definition set_database_name (v : option str) (r : db_response) : db_response :=
  {| backend := backend r; database := database r;
     database_url := database_url r; database_name := v;
     connection_status := connection_status r; collections := collections r |}.

Definition set_connection_status (v : str) (r : db_response) : db_response :=
  {| backend := backend r; database := database r;
     database_url := database_url r; database_name := database_name r;
     connection_status := v; collections := collections r |}.

Definition set_collections (v : list str) (r : db_response) : db_response :=
  {| backend := backend r; database := database r;
     database_url := database_url r; database_name := database_name r;
     connection_status := connection_status r; collections := v |}.

(** The signs of the messages: U+2705, U+274C, and U+26A0 U+FE0F. *)
Definition OK_SIGN : str := [9989].
Definition NO_SIGN : str := [10060].
Definition WARN_SIGN : str := [9888; 65039].

Definition initial_response : db_response :=
  {| backend := OK_SIGN ++ lit " Running";
     database := NO_SIGN ++ lit " Not Available";
     database_url := None;
     database_name := None;
     connection_status := lit "Not Connected";
     collections := [] |}.

(** [except Exception] catches it. *)
Definition is_Exception (e : exc) : bool :=
  match exc_cls e with BaseOnlyC => false | _ => true end.

(** The body of the outer [try]: the response as the statements left it,
    and the exception that ended them, if one did. *)
Definition try_import (w : world) (r : db_response) : db_response * option exc :=
  match import_db w with
  | Raise e => (r, Some e)
  | Ret None =>
      (set_database (WARN_SIGN ++ lit "  Available but not initialized") r, None)
  | Ret (Some db) =>
      let r := set_database (OK_SIGN ++ lit " Available") r in
      let r := set_database_url (Some (OK_SIGN ++ lit " Configured")) r in
      match db_name db with
      | Raise e => (r, Some e)
      | Ret name =>
          let r := set_database_name
                     (Some (match name with
                            | Some v => v
                            | None => OK_SIGN ++ lit " Connected"
                            end)) r in
          let r := set_connection_status (lit "Connected") r in
          match db_list_collection_names db with
          | Ret cs =>
              let r := set_collections (take 10 cs) r in
              (set_database (OK_SIGN ++ lit " Connected & Working") r, None)
          | Raise e =>
              if is_Exception e
              then (set_database (WARN_SIGN ++ lit "  Connected but Error: "
                                  ++ take 50 (exc_str e)) r, None)
              else (r, Some e)
          end
      end
  end.

(** ["..." if os.getenv(key) else "..."] *)
Definition env_flag (w : world) (key : str) : str :=
  match environ w !! key with
  | Some v => if truthy v then OK_SIGN ++ lit " Set" else NO_SIGN ++ lit " Not Set"
  | None => NO_SIGN ++ lit " Not Set"
  end.

Definition test_database (w : world) : outcome db_response :=
  let '(r, raised) := try_import w initial_response in
  let handled :=
    match raised with
    | None => Ret r
    | Some e =>
        match exc_cls e with
        | ImportErrorC =>
            Ret (set_database
                   (NO_SIGN ++ lit " Database module not found (run enable-database first)") r)
        | OtherExceptionC =>
            Ret (set_database (NO_SIGN ++ lit " Error: " ++ take 50 (exc_str e)) r)
        | BaseOnlyC => Raise e
        end
    end in
  match handled with
  | Raise e => Raise e
  | Ret r =>
      let r := set_database_url (Some (env_flag w (lit "DATABASE_URL"))) r in
      let r := set_database_name (Some (env_flag w (lit "DATABASE_NAME"))) r in
      Ret r
  end.

End Diag.

Export Diag.

(** ** The program as a server: the state that outlives a request

    What lives as long as the process is the module's globals; the program
    has one that its handlers read, the list [action_keywords].  Here the
    functions of [POST /analyze] are written as they run against that
    store: a read of a global is a read of the store, and the store a call
    leaves behind is the one the next request finds.  Locals ([actions],
    [seen], [deduped]) are created afresh by each call. *)

Module Server.

Record globals := Globals {
  g_action_keywords : list str
}.

(** The globals once the module is loaded. *)
Definition initial_globals : globals :=
  {| g_action_keywords := action_keywords |}.

(** A computation on the store that may raise. *)
Definition M (A : Type) : Type := globals -> option (A * globals).

Definition ret {A} (a : A) : M A := fun g => Some (a, g).

Definition bind {A B} (m : M A) (k : A -> M B) : M B :=
  fun g => match m g with Some (a, g') => k a g' | None => None end.

(** A computation that does not touch the store. *)
Definition lift {A} (o : option A) : M A :=
  fun g => match o with Some a => Some (a, g) | None => None end.

(** Reading the global [action_keywords]. *)
Definition read_action_keywords : M (list str) :=
  fun g => Some (g_action_keywords g, g).

Section WithLower.
Context `{Lower}.

(** [any(k in low for k in action_keywords)] *)
Definition keyword_hit_m (line : str) : M bool :=
  let low := lower line in
  bind read_action_keywords (fun kws =>
  ret (existsb (fun k => contains k low) kws)).

Definition records_m (line : str) : M bool :=
  bind (keyword_hit_m line) (fun hit : bool =>
  if hit then ret true else lift (imperative line)).

Fixpoint scan_lines_m (lines : list str) (actions : list str) : M (list str) :=
  match lines with
  | [] => ret actions
  | line :: lines' =>
      bind (records_m line) (fun b : bool =>
      scan_lines_m lines' (if b then actions ++ [line] else actions))
  end.

Definition _extract_actions_m (text : str) : M (list str) :=
  let lines := stripped_lines text in
  bind (scan_lines_m lines []) (fun actions =>
  let deduped := dedup_loop actions ∅ [] in
  let deduped :=
    if negb (truthy deduped) && truthy (strip text)
    then [fallback] else deduped in
  ret (take 10 deduped)).

Definition analyze_m (req : AnalyzeRequest) : M AnalyzeResponse :=
  bind (lift (_heuristic_summary (text req) (opt_or_else (lang req) (lit "en"))))
    (fun summary =>
  bind (_extract_actions_m (text req)) (fun actions =>
  ret {| summary := summary; actions := actions |})).

(** The requests of a run, handled one after the other on the same
    store. *)
Fixpoint serve (reqs : list AnalyzeRequest) : M (list AnalyzeResponse) :=
  match reqs with
  | [] => ret []
  | req :: reqs' =>
      bind (analyze_m req) (fun resp =>
      bind (serve reqs') (fun resps =>
      ret (resp :: resps)))
  end.

End WithLower.

End Server.

Export Server.

(** * Vocabulary of the statements *)

(** Text made of whitespace only, and text with a character that is not. *)
Definition blank (s : str) : Prop := Forall (fun c => is_space c = true) s.
Definition nonblank (s : str) : Prop := Exists (fun c => is_space c = false) s.

(** A character other than ['.'], ['?'] and ['!']. *)
Definition not_punct (c : char) : Prop := punct c = false.

(** One of the characters of [" -•\t"]. *)
Definition is_bullet (c : char) : Prop := in_chars bullet_chars c = true.

(** The candidate line as the specification words it: the line with
    surrounding whitespace removed, then leading bullet characters
    (space, hyphen, bullet, tab) removed; what the line ends with is kept. *)
Definition spec_stripped_line (l : str) : str :=
  lstrip_by (in_chars bullet_chars) (strip l).

(** A text in which whitespace only occurs as single spaces; [prev_ws]
    tells that a whitespace character comes directly before. *)
Fixpoint single_spaced (prev_ws : bool) (s : str) : bool :=
  match s with
  | [] => true
  | c :: t =>
      if is_space c then (c =? SPACE) && negb prev_ws && single_spaced true t
      else single_spaced false t
  end.

(** The last-letter test of the heuristic, on the lower-cased token. *)
Definition ends_edny (token : str) : bool :=
  endswith token (lit "e") || endswith token (lit "d")
  || endswith token (lit "n") || endswith token (lit "y").

(** A text of 160 characters whose 150th character is a space: 149 times
    [a], a space, 10 times [b]. *)
Definition space_at_150 : str := replicate 149 97 ++ [32] ++ replicate 10 98.

(** The shape of the lines the imperative pattern matches: a word of
    letters, whitespace, a letter. *)
Definition word_space_letter (line : str) : Prop :=
  exists w ws c tl,
    line = w ++ ws ++ c :: tl
    /\ w <> [] /\ Forall (fun c => is_alpha c = true) w
    /\ ws <> [] /\ Forall (fun c => is_space c = true) ws
    /\ is_alpha c = true.

(** Two worlds for the diagnostic endpoint: a database named [prod] with
    twelve collections, and one whose listing fails with a message of 80
    characters. *)
Definition world_twelve_collections : world :=
  {| import_db := Ret (Some {| db_name := Ret (Some (lit "prod"));
                               db_list_collection_names :=
                                 Ret (replicate 12 (lit "c")) |});
     environ := {[ lit "DATABASE_URL" := lit "mongodb://h" ]} |}.

Definition world_long_error : world :=
  {| import_db := Ret (Some {| db_name := Ret None;
                               db_list_collection_names :=
                                 Raise (Exc OtherExceptionC (replicate 80 120)) |});
     environ := ∅ |}.

(** The group that swallows an optional leading [please]. *)
Abbreviation please_group :=
  (Group 1 (Cat (Chars (lit "please")) (Repeat is_space 1 None))).
Abbreviation word_group := (Group 2 (Repeat is_alpha 1 None)).
Abbreviation gap_group := (Group 3 (Repeat is_space 1 None)).

Section Candidates_vocabulary.
Context `{Lower}.

(** [line] is appended by the first loop. *)
Definition recorded (line : str) : Prop := records line = Some true.

#[global] Instance recorded_dec line : Decision (recorded line).
Proof. unfold recorded. apply _. Defined.

(** [a] stands at index [i] of [cands], and nothing before it has the same
    lower-cased content. *)
Definition first_occ (cands : list str) (i : nat) (a : str) : Prop :=
  cands !! i = Some a
  /\ forall j b, (j < i)%nat -> cands !! j = Some b -> lower b <> lower a.

Definition increasing (idx : list nat) : Prop :=
  forall j1 j2 i1 i2, (j1 < j2)%nat ->
    idx !! j1 = Some i1 -> idx !! j2 = Some i2 -> (i1 < i2)%nat.

End Candidates_vocabulary.

(** * The embedding at work

    The examples of the specification and a few runs of the runtime
    fragments, evaluated on the embedding. *)

Example splitlines_crlf :
  splitlines (lit "a" ++ [CR; LF] ++ lit "b" ++ [LF; LF] ++ lit "c" ++ [CR])
  = [lit "a"; lit "b"; []; lit "c"].
Proof. reflexivity. Qed.

Example strip_chars_both_ends :
  strip_chars bullet_chars ([8226; 32] ++ lit "- item one -" ++ [9])
  = lit "item one".
Proof. reflexivity. Qed.

Example sub_ws_collapses :
  sub_ws false ([9; 10] ++ lit "a  b" ++ [160; 32; 13] ++ lit "c ")
  = lit " a b c ".
Proof. reflexivity. Qed.

Example search_first_sentence :
  (re_search sentence_re (lit "Too short. This one is long enough! Rest."))
    ≫= group 1
  = Some (lit " This one is long enough!").
Proof. reflexivity. Qed.

(** Backtracking out of the optional group: the imperative pattern matches
    ["please go"] by reading [please] as the verb, while the token pattern
    reads [go]. *)
Example imperative_re_please_go :
  (re_match imperative_re (lit "please go")) ≫= group 2 = Some (lit "please")
  /\ (re_match token_re (lit "please go")) ≫= group 2 = Some (lit "go")
  /\ imperative (lit "please go") = Some false.
Proof. by vm_compute. Qed.

Example actions_schedule_buy_milk :
  _extract_actions
    (lit "Please schedule the review meeting." ++ [LF] ++ lit "Buy milk.")
  = Some [lit "Please schedule the review meeting."; lit "Buy milk."].
Proof. by vm_compute. Qed.

Example actions_hello_world :
  _extract_actions (lit "hello world") = Some [fallback].
Proof. by vm_compute. Qed.

Example actions_case_insensitive_dedup :
  _extract_actions
    (lit "Call Bob" ++ [LF] ++ lit "- call bob" ++ [LF] ++ lit "Send it")
  = Some [lit "Call Bob"; lit "Send it"].
Proof. by vm_compute. Qed.

Example analyze_empty :
  analyze {| text := []; lang := None |}
  = Some {| summary := no_content; actions := [] |}.
Proof. by vm_compute. Qed.

Example analyze_telugu :
  analyze {| text := lit "Send the report today.  Thanks";
             lang := Some (lit "te-IN") |}
  = Some {| summary := lit "[Telugu] Send the report today.";
            actions := [lit "Send the report today.  Thanks"] |}.
Proof. by vm_compute. Qed.

(** * Properties *)

(** ** Stripping *)

Section Strip.
Variable p : char -> bool.

Lemma lstrip_by_split (s : str) :
  exists pre, s = pre ++ lstrip_by p s /\ Forall (fun c => p c = true) pre.
Proof.
  induction s as [|c s [pre [E F]]]; simpl.
  - exists []. auto.
  - destruct (p c) eqn:Hc.
    + exists (c :: pre). split; [simpl; congruence | by constructor].
    + exists []. auto.
Qed.

Lemma lstrip_by_head (s : str) c :
  head (lstrip_by p s) = Some c -> p c = false.
Proof.
  induction s as [|a s IH]; simpl; [done|].
  destruct (p a) eqn:Ha; [done|]. simpl. congruence.
Qed.

Lemma lstrip_by_all (s : str) :
  Forall (fun c => p c = true) s -> lstrip_by p s = [].
Proof. induction 1 as [|c s Hc _ IH]; simpl; [done|]. by rewrite Hc. Qed.

Lemma lstrip_by_keep (s : str) c :
  head s = Some c -> p c = false -> lstrip_by p s = s.
Proof. destruct s; simpl; [done|]. intros [= ->] ->. done. Qed.

Lemma lstrip_by_app_keep (a b : str) c :
  head b = Some c -> p c = false ->
  lstrip_by p (a ++ b) = lstrip_by p a ++ b.
Proof.
  intros Hb Hc. induction a as [|x a IH]; simpl.
  - by eapply lstrip_by_keep.
  - by destruct (p x).
Qed.

Lemma rstrip_by_split (s : str) :
  exists post, s = rstrip_by p s ++ post /\ Forall (fun c => p c = true) post.
Proof.
  unfold rstrip_by. destruct (lstrip_by_split (reverse s)) as [pre [E F]].
  exists (reverse pre). split.
  - rewrite <- reverse_app, <- E. by rewrite reverse_involutive.
  - by apply Forall_reverse.
Qed.

Lemma rstrip_by_last (s : str) c :
  last (rstrip_by p s) = Some c -> p c = false.
Proof.
  unfold rstrip_by. rewrite last_reverse. apply lstrip_by_head.
Qed.

Lemma rstrip_by_keep (s : str) c :
  last s = Some c -> p c = false -> rstrip_by p s = s.
Proof.
  intros Hl Hc. unfold rstrip_by.
  rewrite (lstrip_by_keep _ c); [apply reverse_involutive| |done].
  by rewrite head_reverse.
Qed.

(** What [strip] removes, on both sides, consists of stripped characters
    only, and what it keeps neither begins nor ends with one. *)
Lemma strip_by_split (s : str) :
  exists pre post,
    s = pre ++ strip_by p s ++ post
    /\ Forall (fun c => p c = true) pre
    /\ Forall (fun c => p c = true) post.
Proof.
  unfold strip_by.
  destruct (lstrip_by_split s) as [pre [E F]].
  destruct (rstrip_by_split (lstrip_by p s)) as [post [E' F']].
  exists pre, post. split; [|done]. by rewrite <- E', <- E.
Qed.

Lemma strip_by_head (s : str) c :
  head (strip_by p s) = Some c -> p c = false.
Proof.
  unfold strip_by. intros Hh.
  destruct (rstrip_by_split (lstrip_by p s)) as [post [E F]].
  destruct (rstrip_by p (lstrip_by p s)) as [|x r] eqn:Hr; [done|].
  simpl in Hh. simplify_eq. apply (lstrip_by_head s). by rewrite E.
Qed.

Lemma strip_by_last (s : str) c :
  last (strip_by p s) = Some c -> p c = false.
Proof. apply rstrip_by_last. Qed.

Lemma strip_by_all (s : str) :
  Forall (fun c => p c = true) s -> strip_by p s = [].
Proof. intros F. unfold strip_by. by rewrite lstrip_by_all. Qed.

Lemma strip_by_truthy (s : str) :
  truthy (strip_by p s) = true -> exists c, c ∈ s /\ p c = false.
Proof.
  intros Ht. destruct (strip_by p s) as [|c r] eqn:E; [done|].
  exists c. split.
  - destruct (strip_by_split s) as (pre & post & Es & _).
    rewrite Es, E. set_solver.
  - apply (strip_by_head s). by rewrite E.
Qed.

End Strip.

(** ** Lines and whitespace *)

Lemma splitlines_go_Forall (P : char -> Prop) after cur s :
  Forall P cur -> Forall P s ->
  Forall (Forall P) (splitlines_go after cur s).
Proof.
  intros Hcur Hs. revert after cur Hcur.
  induction Hs as [|c s Hc Hs IH]; intros after cur Hcur; cbn [splitlines_go].
  - destruct cur; repeat constructor; by inversion Hcur.
  - destruct (after && (c =? LF)); [by apply IH|].
    destruct (is_linebreak c).
    + constructor; [done | by apply IH].
    + apply IH. apply Forall_app. by repeat constructor.
Qed.

(** The characters of a line are characters of the text. *)
Lemma splitlines_chars (text l : str) c :
  l ∈ splitlines text -> c ∈ l -> c ∈ text.
Proof.
  intros Hl Hc.
  assert (Forall (Forall (fun c => c ∈ text)) (splitlines text)) as F.
  { apply splitlines_go_Forall; [constructor | by apply Forall_forall]. }
  rewrite Forall_forall in F. specialize (F l Hl).
  rewrite Forall_forall in F. by apply F.
Qed.

Lemma is_space_SPACE : is_space SPACE = true.
Proof. reflexivity. Qed.

Lemma sub_ws_single_spaced b s : single_spaced b (sub_ws b s) = true.
Proof.
  revert b. induction s as [|c s IH]; intros b; cbn [sub_ws]; [done|].
  destruct (is_space c) eqn:Hc.
  - destruct b; [apply IH|].
    cbn [single_spaced]. rewrite is_space_SPACE, IH. reflexivity.
  - cbn [single_spaced]. rewrite Hc. apply IH.
Qed.

Lemma single_spaced_weaken b s :
  single_spaced b s = true -> single_spaced false s = true.
Proof.
  destruct s as [|c t]; cbn [single_spaced]; [done|].
  destruct (is_space c); [|done]. destruct b; [|done].
  by rewrite andb_false_r.
Qed.

Lemma single_spaced_app_l b s t :
  single_spaced b (s ++ t) = true -> single_spaced b s = true.
Proof.
  revert b. induction s as [|c s IH]; intros b; cbn [single_spaced app]; [done|].
  destruct (is_space c).
  - intros [[-> ->]%andb_prop Hs]%andb_prop. by rewrite (IH _ Hs).
  - apply IH.
Qed.

Lemma single_spaced_app_r b s t :
  single_spaced b (s ++ t) = true -> single_spaced false t = true.
Proof.
  revert b. induction s as [|c s IH]; intros b; cbn [single_spaced app].
  - apply single_spaced_weaken.
  - destruct (is_space c).
    + intros [_ Hs]%andb_prop. by eapply IH.
    + apply IH.
Qed.

(** In single-spaced text, the character before a trailing whitespace
    character is not whitespace, and the trailing one is a space. *)
Lemma single_spaced_snoc b s x y :
  single_spaced b (s ++ [x]) = true -> is_space x = true ->
  x = SPACE /\ (last s = Some y -> is_space y = false).
Proof.
  revert b. induction s as [|c s IH]; intros b; cbn [single_spaced app].
  - intros Hs Hx. rewrite Hx in Hs.
    apply andb_prop in Hs as [[->%N.eqb_eq _]%andb_prop _]. done.
  - intros Hs Hx. destruct (is_space c) eqn:Hc.
    + apply andb_prop in Hs as [_ Hs]. destruct (IH _ Hs Hx) as [-> Hl].
      split; [done|]. destruct s as [|d s]; [|by rewrite last_cons_cons].
      vm_compute in Hs. done.
    + destruct (IH _ Hs Hx) as [-> Hl]. split; [done|].
      destruct s as [|d s]; [|by rewrite last_cons_cons].
      cbn. congruence.
Qed.

Lemma sub_ws_all_space b s :
  Forall (fun c => is_space c = true) s ->
  Forall (fun c => is_space c = true) (sub_ws b s).
Proof.
  intros F. revert b. induction F as [|c s Hc _ IH]; intros b; cbn [sub_ws].
  - constructor.
  - rewrite Hc. destruct b; [apply IH|]. constructor; [done|apply IH].
Qed.

(** Collapsing introduces no character other than the space. *)
Lemma sub_ws_chars b s c :
  c ∈ sub_ws b s -> c = SPACE \/ c ∈ s.
Proof.
  revert b. induction s as [|a s IH]; intros b; cbn [sub_ws]; [set_solver|].
  destruct (is_space a).
  - destruct b.
    + intros [?|?]%IH; set_solver.
    + intros [->|[?|?]%IH]%elem_of_cons; set_solver.
  - intros [->|[?|?]%IH]%elem_of_cons; set_solver.
Qed.

Lemma cleaned_chars text c :
  c ∈ cleaned text -> c = SPACE \/ c ∈ text.
Proof.
  intros Hc. apply (sub_ws_chars false).
  destruct (strip_by_split is_space (sub_ws false text)) as (pre & post & E & _).
  rewrite E. unfold cleaned, strip in Hc. set_solver.
Qed.

Lemma cleaned_single_spaced text : single_spaced false (cleaned text) = true.
Proof.
  pose proof (sub_ws_single_spaced false text) as Hs.
  destruct (strip_by_split is_space (sub_ws false text)) as (pre & post & E & _).
  rewrite E in Hs. apply single_spaced_app_r in Hs.
  by apply single_spaced_app_l in Hs.
Qed.

Lemma cleaned_head text c :
  head (cleaned text) = Some c -> is_space c = false.
Proof. apply strip_by_head. Qed.

Lemma cleaned_blank text :
  Forall (fun c => is_space c = true) text -> cleaned text = [].
Proof. intros F. apply strip_by_all. by apply sub_ws_all_space. Qed.

(** ** The matcher *)

Lemma elem_of_countdown lo hi k :
  k ∈ countdown lo hi <-> (lo <= k <= hi)%nat.
Proof.
  induction hi as [|h IH]; cbn [countdown]; case_decide.
  - rewrite elem_of_nil. lia.
  - rewrite list_elem_of_singleton. lia.
  - rewrite elem_of_nil. lia.
  - rewrite elem_of_cons, IH. lia.
Qed.

Lemma countdown_head lo hi :
  (lo <= hi)%nat -> head (countdown lo hi) = Some hi.
Proof. intros Hle. destruct hi; cbn [countdown]; case_decide; done || lia. Qed.

Section RunLength.
Variable p : char -> bool.

Lemma run_length_take s k :
  (k <= run_length p s)%nat -> Forall (fun c => p c = true) (take k s).
Proof.
  revert k. induction s as [|c s IH]; intros k; simpl.
  - rewrite take_nil. constructor.
  - destruct k; [constructor|]. destruct (p c) eqn:Hc; [|lia].
    intros Hk. constructor; [done|]. apply IH. lia.
Qed.

Lemma run_length_app a b :
  Forall (fun c => p c = true) a ->
  (forall c, head b = Some c -> p c = false) ->
  run_length p (a ++ b) = length a.
Proof.
  intros Fa Hb. induction Fa as [|c a Hc _ IH]; simpl.
  - destruct b as [|c b]; [done|]. simpl. by rewrite (Hb c).
  - by rewrite Hc, IH.
Qed.

End RunLength.

Lemma head_bind_cons {A B} (f : A -> list B) x l y :
  head (f x) = Some y -> head ((x :: l) ≫= f) = Some y.
Proof. intros Hy. cbn. destruct (f x); by simplify_eq/=. Qed.

Lemma bind_nil_inv {A B} (f : A -> list B) l :
  l ≫= f <> [] -> l <> [].
Proof. by intros Hne ->. Qed.

Lemma head_None_nil {A} (l : list A) : head l = None -> l = [].
Proof. by destruct l. Qed.

Lemma not_nil_elem {A} (l : list A) x : x ∈ l -> l <> [].
Proof. intros Hx ->. by apply elem_of_nil in Hx. Qed.

(** *** The sentence pattern *)

(** Every way the sentence pattern matches: a run of 10 to 200 characters
    without sentence punctuation, then one punctuation mark; group 1 is
    the whole of it. *)
Lemma sentence_run_elem st m :
  m ∈ run sentence_re st ->
  exists g q t,
    rest st = g ++ q :: t /\ punct q = true /\ Forall not_punct g
    /\ (10 <= length g <= 200)%nat
    /\ group 1 m = Some (g ++ [q]).
Proof.
  unfold sentence_re. cbn [run].
  intros (m' & -> & Hm')%list_elem_of_fmap.
  apply list_elem_of_bind in Hm' as (m1 & Hm' & Hm1).
  apply list_elem_of_fmap in Hm1 as (k & -> & Hk).
  apply elem_of_countdown in Hk. unfold cap in Hk.
  cbn [run advance rest pos groups] in Hm'.
  destruct (drop k (rest st)) as [|q t] eqn:Hd; [by apply elem_of_nil in Hm'|].
  destruct (punct q) eqn:Hq; [|by apply elem_of_nil in Hm'].
  apply list_elem_of_singleton in Hm' as ->.
  exists (take k (rest st)), q, t.
  assert (k < length (rest st))%nat as Hlen.
  { destruct (decide (k < length (rest st))%nat); [done|].
    rewrite drop_ge in Hd by lia. done. }
  split_and!.
  - by rewrite <- Hd, take_drop.
  - done.
  - eapply Forall_impl;
      [apply (run_length_take (fun c => negb (punct c))); lia|].
    intros c Hc. by apply negb_true_iff.
  - rewrite length_take. lia.
  - rewrite length_take. lia.
  - unfold group. cbn.
    replace (pos st + k + 1 - pos st)%nat with (S k) by lia.
    f_equal. rewrite (take_S_r _ _ q); [done|].
    by rewrite <- (Nat.add_0_r k), <- lookup_drop, Hd.
Qed.

Lemma sentence_run_nil st :
  Forall not_punct (rest st) -> run sentence_re st = [].
Proof.
  intros F. destruct (run sentence_re st) as [|m l] eqn:E; [done|].
  destruct (sentence_run_elem st m) as (g & q & t & Hr & Hq & _).
  { rewrite E. left. }
  rewrite Hr in F. apply Forall_app in F as [_ F].
  inversion F; subst. unfold not_punct in *. congruence.
Qed.

Lemma sentence_run_some st g q t :
  rest st = g ++ q :: t -> Forall not_punct g -> punct q = true ->
  (10 <= length g <= 200)%nat ->
  run sentence_re st <> [].
Proof.
  intros Hr Fg Hq Hlen.
  apply (not_nil_elem _
    (set_group 1 (take (pos (advance 1 (advance (length g) st)) - pos st) (rest st))
       (advance 1 (advance (length g) st)))).
  unfold sentence_re. cbn [run].
  apply list_elem_of_fmap. exists (advance 1 (advance (length g) st)).
  split; [done|].
  apply list_elem_of_bind. exists (advance (length g) st). split.
  - cbn [run advance rest]. rewrite Hr, drop_app_length, Hq. left.
  - apply (list_elem_of_fmap_2 (fun k => advance k st)).
    apply elem_of_countdown. rewrite Hr. rewrite (run_length_app _ g (q :: t)).
    + unfold cap. lia.
    + eapply Forall_impl; [exact Fg|]. intros c Hc. by apply negb_true_iff.
    + intros c [= <-]. by rewrite Hq.
Qed.

(** *** [re.search] *)

Lemma search_from_Some r i s m :
  search_from r i s = Some m ->
  exists j, (j <= length s)%nat /\ m ∈ run r (MState (i + j) (drop j s) []).
Proof.
  revert i. induction s as [|c s IH]; intros i; cbn [search_from].
  - destruct (head (run r (MState i [] []))) eqn:E; [|done].
    intros [= ->]. exists O. rewrite Nat.add_0_r. split; [simpl; lia|].
    by apply head_Some_elem_of.
  - destruct (head (run r (MState i (c :: s) []))) eqn:E.
    + intros [= ->]. exists O. rewrite Nat.add_0_r. split; [simpl; lia|].
      by apply head_Some_elem_of.
    + intros (j & Hj & Hm)%IH. exists (S j). split; [simpl; lia|].
      by replace (i + S j)%nat with (S i + j)%nat by lia.
Qed.

Lemma search_from_None r i s :
  (forall j, (j <= length s)%nat -> run r (MState (i + j) (drop j s) []) = []) ->
  search_from r i s = None.
Proof.
  revert i. induction s as [|c s IH]; intros i Hn; cbn [search_from].
  - specialize (Hn O ltac:(simpl; lia)). rewrite Nat.add_0_r in Hn.
    cbn in Hn. by rewrite Hn.
  - pose proof (Hn O ltac:(simpl; lia)) as H0. rewrite Nat.add_0_r in H0.
    cbn in H0. rewrite H0. cbn. apply IH. intros j Hj.
    specialize (Hn (S j) ltac:(simpl; lia)).
    by replace (i + S j)%nat with (S i + j)%nat in Hn by lia.
Qed.

Lemma search_from_is_Some r i s j :
  (j <= length s)%nat -> run r (MState (i + j) (drop j s) []) <> [] ->
  is_Some (search_from r i s).
Proof.
  revert i j. induction s as [|c s IH]; intros i j Hj Hne; cbn [search_from].
  - assert (j = O) as -> by (simpl in Hj; lia). rewrite Nat.add_0_r in Hne.
    cbn in Hne. destruct (run r (MState i [] [])); [done|]. by eexists.
  - destruct (head (run r (MState i (c :: s) []))) eqn:E; [by eexists|].
    apply head_None_nil in E. destruct j as [|j].
    + rewrite Nat.add_0_r in Hne. done.
    + apply (IH (S i) j); [simpl in Hj; lia|].
      by replace (S i + j)%nat with (i + S j)%nat by lia.
Qed.

(** [re.search] reports the head match at the first offset that has one. *)
Lemma search_from_first r i s m :
  search_from r i s = Some m ->
  exists j, (j <= length s)%nat
            /\ head (run r (MState (i + j) (drop j s) [])) = Some m
            /\ forall j', (j' < j)%nat ->
                  run r (MState (i + j') (drop j' s) []) = [].
Proof.
  revert i. induction s as [|c s IH]; intros i; cbn [search_from].
  - destruct (head (run r (MState i [] []))) eqn:E; [|done].
    intros [= ->]. exists O. rewrite Nat.add_0_r.
    split; [simpl; lia|]. split; [done|]. intros; lia.
  - destruct (head (run r (MState i (c :: s) []))) eqn:E.
    + intros [= ->]. exists O. rewrite Nat.add_0_r.
      split; [simpl; lia|]. split; [done|]. intros; lia.
    + intros (j & Hj & Hm & Hfirst)%IH. exists (S j).
      split; [simpl; lia|]. split.
      * by replace (i + S j)%nat with (S i + j)%nat by lia.
      * intros [|j'] Hlt.
        -- rewrite Nat.add_0_r. by apply head_None_nil.
        -- replace (i + S j')%nat with (S i + j')%nat by lia.
           apply Hfirst. lia.
Qed.

(** The sentence [re.search] reports: where it lies in the subject, what
    group 1 holds, and that no sentence starts further left. *)
Lemma sentence_search_first s m :
  re_search sentence_re s = Some m ->
  exists pre g q post,
    s = pre ++ g ++ q :: post
    /\ group 1 m = Some (g ++ [q])
    /\ punct q = true /\ Forall not_punct g
    /\ (10 <= length g <= 200)%nat
    /\ forall pre0 g0 q0 post0,
         s = pre0 ++ g0 ++ q0 :: post0 -> punct q0 = true ->
         Forall not_punct g0 -> (10 <= length g0 <= 200)%nat ->
         (length pre <= length pre0)%nat.
Proof.
  intros (j & Hj & Hm & Hfirst)%search_from_first.
  destruct (sentence_run_elem _ _ (head_Some_elem_of _ _ Hm))
    as (g & q & t & Hr & Hq & Fg & Hlen & Hg).
  cbn [rest] in Hr. exists (take j s), g, q, t.
  split_and!; try done; try lia.
  - by rewrite <- Hr, take_drop.
  - intros pre0 g0 q0 post0 Hs Hq0 Fg0 Hlen0. rewrite length_take.
    destruct (decide (length pre0 < j)%nat) as [Hlt|]; [|lia].
    exfalso. apply (sentence_run_some (MState (0 + length pre0)
                       (drop (length pre0) s) []) g0 q0 post0); try done.
    + cbn [rest]. by rewrite Hs, drop_app_length.
    + by apply Hfirst.
Qed.

(** *** The imperative patterns *)

Lemma is_alpha_range c : is_alpha c = true -> 65 <= c <= 122.
Proof.
  unfold is_alpha.
  rewrite orb_true_iff, !andb_true_iff, !N.leb_le. lia.
Qed.

Lemma is_space_range c : is_space c = true -> c <= 32 \/ 133 <= c.
Proof.
  unfold is_space.
  rewrite !orb_true_iff, !andb_true_iff, !N.leb_le, !N.eqb_eq. lia.
Qed.

Lemma is_space_not_alpha c : is_space c = true -> is_alpha c = false.
Proof.
  intros Hs%is_space_range. destruct (is_alpha c) eqn:Ha; [|done].
  apply is_alpha_range in Ha. lia.
Qed.

Lemma is_alpha_not_space c : is_alpha c = true -> is_space c = false.
Proof.
  intros Ha. destruct (is_space c) eqn:Hs; [|done].
  apply is_space_not_alpha in Hs. congruence.
Qed.


Lemma head_bind {A B} (f : A -> list B) l x y :
  head l = Some x -> head (f x) = Some y -> head (l ≫= f) = Some y.
Proof.
  destruct l as [|a l]; [done|]. intros [= ->]. apply head_bind_cons.
Qed.

Lemma head_fmap {A B} (f : A -> B) l x :
  head l = Some x -> head (f <$> l) = Some (f x).
Proof. destruct l; [done|]. by intros [= ->]. Qed.


(** A greedy repetition first takes the whole run. *)
Lemma run_Repeat_head p lo st :
  (lo <= run_length p (rest st))%nat ->
  head (run (Repeat p lo None) st)
  = Some (advance (run_length p (rest st)) st).
Proof.
  intros Hlo. cbn [run cap].
  apply (head_fmap (fun k => advance k st)). by apply countdown_head.
Qed.

Lemma run_Group_head n r st m :
  head (run r st) = Some m ->
  head (run (Group n r) st)
  = Some (set_group n (take (pos m - pos st) (rest st)) m).
Proof.
  intros Hm. cbn [run].
  by apply (head_fmap (fun st' => set_group n (take (pos st' - pos st) (rest st)) st')).
Qed.

Lemma run_Cat_head r1 r2 st m1 m2 :
  head (run r1 st) = Some m1 -> head (run r2 m1) = Some m2 ->
  head (run (Cat r1 r2) st) = Some m2.
Proof. intros H1 H2. cbn [run]. by eapply head_bind. Qed.

Lemma run_Cat_elem r1 r2 st m1 m2 :
  m1 ∈ run r1 st -> m2 ∈ run r2 m1 -> m2 ∈ run (Cat r1 r2) st.
Proof. intros H1 H2. cbn [run]. apply list_elem_of_bind. eauto. Qed.

(** Whatever the token pattern matches, its group 2 took part. *)
Lemma token_re_group2 st m :
  m ∈ run token_re st -> is_Some (group 2 m).
Proof.
  unfold token_re. cbn [run].
  intros (m1 & Hm & _)%list_elem_of_bind.
  apply list_elem_of_fmap in Hm as (m2 & -> & _).
  unfold group. cbn. by eexists.
Qed.

(** The imperative pattern extends the token pattern: where the former
    matches, so does the latter. *)
Lemma imperative_re_token st :
  run imperative_re st <> [] -> run token_re st <> [].
Proof.
  unfold imperative_re. cbn [run].
  intros Hne%bind_nil_inv%bind_nil_inv. exact Hne.
Qed.

Lemma token_match_group2 line :
  is_Some (re_match imperative_re line) ->
  exists m g, re_match token_re line = Some m /\ group 2 m = Some g.
Proof.
  unfold re_match. intros [mi Hmi].
  assert (run token_re (MState 0 line []) <> []) as Hne.
  { apply imperative_re_token. intros E. by rewrite E in Hmi. }
  destruct (run token_re (MState 0 line [])) as [|m l] eqn:E; [done|].
  destruct (token_re_group2 (MState 0 line []) m) as [g Hg].
  { rewrite E. left. }
  exists m, g. done.
Qed.

Lemma token_re_unfold line :
  run token_re (MState 0 line [])
  = (run please_group (MState 0 line []) ≫= run word_group)
    ++ run word_group (MState 0 line []).
Proof.
  unfold token_re. cbn [run pos]. rewrite decide_True by done.
  cbn [mbind list_bind]. rewrite app_nil_r, bind_app.
  cbn [mbind list_bind]. by rewrite app_nil_r.
Qed.

(** A word, then whitespace, then a letter: [word_group], [gap_group] and
    the final class succeed one after the other. *)
Lemma word_gap_letter st w ws c tl :
  rest st = w ++ ws ++ c :: tl ->
  w <> [] -> Forall (fun c => is_alpha c = true) w ->
  ws <> [] -> Forall (fun c => is_space c = true) ws ->
  is_alpha c = true ->
  exists m, m ∈ run (Cat (Cat word_group gap_group) (Class_ is_alpha)) st.
Proof.
  intros Hr Hw Fw Hws Fws Hc.
  assert (run_length is_alpha (rest st) = length w) as Hrl.
  { rewrite Hr. apply run_length_app; [done|].
    destruct ws as [|s ws]; [done|]. intros ? [= <-].
    apply is_space_not_alpha. by inversion Fws. }
  assert (1 <= length w)%nat as Hlw by (destruct w; [done|simpl; lia]).
  assert (1 <= length ws)%nat as Hlws by (destruct ws; [done|simpl; lia]).
  pose proof (run_Group_head 2 _ st _
    (run_Repeat_head is_alpha 1 st ltac:(lia))) as H1.
  rewrite Hrl in H1.
  set (m1 := set_group 2 _ _) in H1.
  assert (rest m1 = ws ++ c :: tl) as Hr1.
  { subst m1. cbn. by rewrite Hr, drop_app_length. }
  assert (run_length is_space (rest m1) = length ws) as Hrl1.
  { rewrite Hr1. apply run_length_app; [done|]. intros ? [= <-].
    by apply is_alpha_not_space. }
  pose proof (run_Group_head 3 _ m1 _
    (run_Repeat_head is_space 1 m1 ltac:(lia))) as H2.
  rewrite Hrl1 in H2.
  set (m2 := set_group 3 _ _) in H2.
  assert (rest m2 = c :: tl) as Hr2.
  { subst m2. cbn [set_group advance rest]. by rewrite Hr1, drop_app_length. }
  exists (advance 1 m2). eapply run_Cat_elem; [eapply run_Cat_elem|].
  - by apply head_Some_elem_of.
  - by apply head_Some_elem_of.
  - cbn [run]. rewrite Hr2, Hc. left.
Qed.

(** [sub_ws] is [re.sub(r"\s+", " ", _)]: text free of whitespace is
    copied, and a maximal run of whitespace, the longest match of [\s+]
    there, becomes one space. *)
Lemma sub_ws_run (a ws t : str) :
  Forall (fun c => is_space c = false) a ->
  ws <> [] -> Forall (fun c => is_space c = true) ws ->
  (forall c, head t = Some c -> is_space c = false) ->
  sub_ws false (a ++ ws ++ t) = a ++ SPACE :: sub_ws false t
  /\ head (run (Repeat is_space 1 None) (MState (length a) (ws ++ t) []))
     = Some (MState (length a + length ws) t []).
Proof.
  intros Fa Hws Fws Ht. split.
  - induction Fa as [|c a Hc _ IH]; cbn [app sub_ws].
    + destruct ws as [|w ws]; [done|]. cbn [app sub_ws].
      inversion Fws as [|? ? Hw Fws']; subst. rewrite Hw. f_equal.
      clear Hws Fws Hw. induction Fws' as [|x ws Hx _ IH]; cbn [app sub_ws].
      * destruct t as [|c t]; [done|]. cbn [sub_ws].
        by rewrite (Ht c eq_refl).
      * by rewrite Hx.
    + by rewrite Hc, IH.
  - assert (run_length is_space (ws ++ t) = length ws) as Hrl
      by (by apply run_length_app).
    rewrite run_Repeat_head; cbn [rest]; rewrite Hrl.
    + unfold advance. cbn. by rewrite drop_app_length.
    + destruct ws; [done|]. simpl. lia.
Qed.

Lemma startswith_app (k s : str) : startswith (k ++ s) k = true.
Proof. induction k as [|a k IH]; [by destruct s|]. simpl. by rewrite N.eqb_refl. Qed.

Lemma word_group_head st w tl :
  rest st = w ++ tl -> w <> [] -> Forall (fun c => is_alpha c = true) w ->
  (forall c, head tl = Some c -> is_alpha c = false) ->
  exists m, head (run word_group st) = Some m
            /\ group 2 m = Some w /\ rest m = tl.
Proof.
  intros Hr Hw Fw Htl.
  assert (run_length is_alpha (rest st) = length w) as Hrl
    by (rewrite Hr; by apply run_length_app).
  assert (1 <= length w)%nat as Hlw by (destruct w; [done|simpl; lia]).
  pose proof (run_Group_head 2 _ st _
    (run_Repeat_head is_alpha 1 st ltac:(lia))) as H1.
  rewrite Hrl in H1. eexists. split; [exact H1|].
  unfold group. cbn. rewrite Hr, drop_app_length. split; [|done].
  replace (pos st + length w - pos st)%nat with (length w) by lia.
  by rewrite take_app_length.
Qed.


Lemma word_path_imperative line m :
  m ∈ run (Cat (Cat word_group gap_group) (Class_ is_alpha)) (MState 0 line []) ->
  m ∈ run imperative_re (MState 0 line []).
Proof.
  cbn [run imperative_re]. unfold imperative_re. cbn [run].
  intros (m2 & Hm & (m1 & Hm2 & Hm1)%list_elem_of_bind)%list_elem_of_bind.
  apply list_elem_of_bind. exists m2. split; [done|].
  apply list_elem_of_bind. exists m1. split; [done|].
  change (m1 ∈ run token_re (MState 0 line [])).
  rewrite token_re_unfold. apply elem_of_app. by right.
Qed.

Section Imperative.
Context `{Lower}.

(** The guarded [.group(2).lower()] never raises. *)
Lemma imperative_total line : is_Some (imperative line).
Proof.
  unfold imperative.
  destruct (re_match imperative_re line) as [mi|] eqn:E; [|by eexists].
  destruct (token_match_group2 line) as (m & g & -> & Hg); [by eexists|].
  cbn. rewrite Hg. cbn. by eexists.
Qed.

Lemma records_total line : is_Some (records line).
Proof.
  unfold records. destruct (keyword_hit line); [by eexists|].
  apply imperative_total.
Qed.

Lemma imperative_word line w :
  is_Some (re_match imperative_re line) ->
  (exists m, re_match token_re line = Some m /\ group 2 m = Some w) ->
  imperative line = Some (ends_edny (lower w)).
Proof.
  intros [mi Hmi] (m & Hm & Hg). unfold imperative.
  rewrite Hmi, Hm. cbn. rewrite Hg. done.
Qed.



End Imperative.

(** ** The two loops of [_extract_actions] *)

Section Loops.
Context `{Lower}.

(** The first loop never raises, and keeps the recorded lines in order. *)
Lemma scan_lines_filter lines acc :
  scan_lines lines acc = Some (acc ++ filter recorded lines).
Proof.
  revert acc. induction lines as [|line lines IH]; intros acc; cbn [scan_lines].
  - by rewrite app_nil_r.
  - destruct (records_total line) as [b Hb]. rewrite Hb. cbn.
    rewrite IH. f_equal. destruct b.
    + rewrite decide_True by done. by rewrite <- app_assoc.
    + rewrite decide_False; [done|]. unfold recorded. congruence.
Qed.

Lemma increasing_snoc idx n :
  increasing idx -> Forall (fun i => (i < n)%nat) idx -> increasing (idx ++ [n]).
Proof.
  intros Hinc Hlt j1 j2 i1 i2 Hj H1 H2.
  apply lookup_snoc_Some in H1 as [[Hl1 H1]|[Hl1 <-]];
    apply lookup_snoc_Some in H2 as [[Hl2 H2]|[Hl2 <-]].
  - exact (Hinc _ _ _ _ Hj H1 H2).
  - rewrite Forall_lookup in Hlt. exact (Hlt _ _ H1).
  - lia.
  - lia.
Qed.

(** Invariant of the second loop: [done] is the part of [cands] already
    visited, [seen] holds the lower-cased content of [done], and [deduped]
    lists, in order, the first occurrences met so far. *)
Lemma dedup_loop_first_occ cands actions :
  forall done seen deduped idx,
    cands = done ++ actions ->
    (forall k, k ∈ seen <-> k ∈ lower <$> done) ->
    Forall2 (first_occ cands) idx deduped ->
    increasing idx ->
    Forall (fun i => (i < length done)%nat) idx ->
    exists idx',
      Forall2 (first_occ cands) idx' (dedup_loop actions seen deduped)
      /\ increasing idx'.
Proof.
  induction actions as [|a actions IH];
    intros done seen deduped idx Hc Hseen Hocc Hinc Hlt; cbn [dedup_loop].
  - eauto.
  - assert (cands = (done ++ [a]) ++ actions) as Hc'
      by (by rewrite <- app_assoc).
    case_decide as Hk.
    + apply (IH (done ++ [a]) seen deduped idx); try done.
      * intros k. rewrite fmap_app, elem_of_app, <- Hseen.
        cbn. rewrite list_elem_of_singleton. split; [by left|].
        by intros [?| ->].
      * eapply Forall_impl; [exact Hlt|]. intros i Hi. rewrite length_app.
        simpl in *. lia.
    + apply (IH (done ++ [a]) _ (deduped ++ [a]) (idx ++ [length done]));
        try done.
      * intros k. rewrite fmap_app, elem_of_app, <- Hseen.
        cbn. rewrite list_elem_of_singleton, elem_of_union, elem_of_singleton.
        tauto.
      * apply Forall2_app; [done|]. repeat constructor.
        -- rewrite Hc. by rewrite list_lookup_middle.
        -- intros j b Hj Hb E. apply Hk. apply Hseen.
           rewrite <- E. apply list_elem_of_fmap_2.
           rewrite Hc, lookup_app_l in Hb by done.
           by eapply list_elem_of_lookup_2.
      * by apply increasing_snoc.
      * apply Forall_app. split.
        -- eapply Forall_impl; [exact Hlt|]. intros i Hi. rewrite length_app.
           simpl in *. lia.
        -- repeat constructor. rewrite length_app. simpl. lia.
Qed.

Lemma dedup_loop_spec cands :
  exists idx,
    Forall2 (first_occ cands) idx (dedup_loop cands ∅ []) /\ increasing idx.
Proof.
  apply (dedup_loop_first_occ cands cands [] ∅ [] []); try done.
  intros k. cbn. by rewrite elem_of_nil, elem_of_empty.
Qed.

(** The second loop keeps at least the first candidate. *)
Lemma dedup_loop_grows actions seen deduped :
  (length deduped <= length (dedup_loop actions seen deduped))%nat.
Proof.
  revert seen deduped. induction actions as [|a actions IH];
    intros seen deduped; cbn [dedup_loop]; [done|].
  case_decide; [apply IH|].
  etrans; [|apply IH]. rewrite length_app. simpl. lia.
Qed.

Lemma dedup_loop_nil_inv cands :
  dedup_loop cands ∅ [] = [] -> cands = [].
Proof.
  destruct cands as [|a cands]; [done|]. cbn [dedup_loop].
  rewrite decide_False by set_solver. intros E.
  pose proof (dedup_loop_grows cands ({[lower a]} ∪ ∅) ([] ++ [a])) as Hg.
  rewrite E in Hg. simpl in Hg. lia.
Qed.

(** [_extract_actions] never raises; its result is determined by the
    recorded candidates. *)
Lemma _extract_actions_eq text :
  let cands := filter recorded (stripped_lines text) in
  scan_lines (stripped_lines text) [] = Some cands
  /\ _extract_actions text
     = Some (take 10 (if negb (truthy cands) && truthy (strip text)
                        then [fallback] else dedup_loop cands ∅ [])).
Proof.
  intros cands. pose proof (scan_lines_filter (stripped_lines text) []) as Hs.
  rewrite app_nil_l in Hs. fold cands in Hs. split; [done|].
  unfold _extract_actions. rewrite Hs. cbn. f_equal. f_equal.
  destruct (dedup_loop cands ∅ []) as [|d l] eqn:E.
  - apply dedup_loop_nil_inv in E. by rewrite E.
  - destruct cands; [done|]. done.
Qed.

End Loops.

(** ** Blank and non-blank text *)

Lemma strip_by_keeps p (s : str) c :
  c ∈ s -> p c = false -> c ∈ strip_by p s.
Proof.
  intros Hc Hp. destruct (strip_by_split p s) as (pre & post & E & Fpre & Fpost).
  rewrite E in Hc. rewrite Forall_forall in Fpre, Fpost.
  apply elem_of_app in Hc as [Hc|Hc]; [apply Fpre in Hc; congruence|].
  apply elem_of_app in Hc as [Hc|Hc]; [done|apply Fpost in Hc; congruence].
Qed.

Lemma sub_ws_keeps b (s : str) c :
  c ∈ s -> is_space c = false -> c ∈ sub_ws b s.
Proof.
  intros Hc Hs. revert b. induction s as [|a s IH]; intros b; [done|].
  cbn [sub_ws]. apply elem_of_cons in Hc as [<-|Hc].
  - rewrite Hs. left.
  - destruct (is_space a); [destruct b|]; try right; by apply IH.
Qed.

Lemma truthy_elem {A} (l : list A) x : x ∈ l -> truthy l = true.
Proof. destruct l; [by intros ?%elem_of_nil|done]. Qed.

Lemma strip_nonblank s : truthy (strip s) = true <-> nonblank s.
Proof.
  unfold nonblank. rewrite Exists_exists. split.
  - intros (c & Hc & Hs)%strip_by_truthy. eauto.
  - intros (c & Hc & Hs). apply (truthy_elem _ c). by apply strip_by_keeps.
Qed.

Lemma cleaned_nonblank text : truthy (cleaned text) = true <-> nonblank text.
Proof.
  unfold nonblank. rewrite Exists_exists. split.
  - intros Ht. destruct (cleaned text) as [|c r] eqn:E; [done|].
    exists c. assert (is_space c = false) as Hs
      by (apply (cleaned_head text); by rewrite E).
    split; [|done]. destruct (cleaned_chars text c) as [->|?]; [|done|done].
    rewrite E. left.
  - intros (c & Hc & Hs). apply (truthy_elem _ c).
    apply strip_by_keeps; [|done]. by apply sub_ws_keeps.
Qed.

Lemma punct_not_space c : punct c = true -> is_space c = false.
Proof.
  unfold punct. rewrite !orb_true_iff, !N.eqb_eq. by intros [[->| ->]| ->].
Qed.

Lemma strip_by_snoc p (g : str) q :
  p q = false -> strip_by p (g ++ [q]) = lstrip_by p g ++ [q].
Proof.
  intros Hq. unfold strip_by.
  rewrite (lstrip_by_app_keep p g [q] q) by done.
  apply (rstrip_by_keep p _ q); [|done]. apply last_snoc.
Qed.

Lemma rstrip_by_snoc p (s : str) x :
  p x = true -> rstrip_by p (s ++ [x]) = rstrip_by p s.
Proof.
  intros Hx. unfold rstrip_by. rewrite reverse_snoc. simpl. by rewrite Hx.
Qed.

(** ** The summary *)

Section Summary.
Context `{Lower}.

(** The search result always carries group 1, so [_heuristic_summary]
    never raises. *)
Lemma sentence_search_group s m :
  re_search sentence_re s = Some m ->
  exists g q, group 1 m = Some (g ++ [q]) /\ punct q = true.
Proof.
  intros (j & _ & Hm)%search_from_Some.
  apply sentence_run_elem in Hm as (g & q & t & _ & Hq & _ & _ & Hg). eauto.
Qed.

Lemma _heuristic_summary_total text lang : is_Some (_heuristic_summary text lang).
Proof.
  unfold _heuristic_summary. destruct (truthy (cleaned text)); [|by eexists].
  cbn [negb]. destruct (re_search sentence_re (cleaned text)) as [m|] eqn:E.
  - apply sentence_search_group in E as (g & q & -> & _). by eexists.
  - by eexists.
Qed.

Lemma prefix_for_te lang :
  startswith (lower lang) (lit "te") = true -> prefix_for lang = telugu_tag.
Proof.
  intros Hte. unfold prefix_for, or_else. destruct lang as [|c lang].
  - rewrite lower_ascii in Hte by constructor. done.
  - cbn [truthy]. by rewrite Hte.
Qed.

End Summary.

(** * The claims *)

Section Actions.
Context `{Lower}.

Lemma analyze_actions text lang resp acts :
  _extract_actions text = Some acts ->
  analyze {| text := text; lang := lang |} = Some resp ->
  actions resp = acts.
Proof.
  intros He. unfold analyze. cbn [Main.text Main.lang]. rewrite He.
  destruct (_heuristic_summary text _); cbn; [|done]. by intros [= <-].
Qed.

(** C1.  For every text, [_extract_actions] returns a list [acts] of at
    most 10 entries, no two of which are equal once lower-cased; and the
    entries stand in the order in which their lower-cased content first
    occurs among the recorded candidates [cands] (the list built by the
    first loop): entries at positions [j1 < j2] are the first occurrences,
    at positions [i1 < i2] of [cands], of their lower-cased content.
    Unless no candidate was recorded, every entry is such a first
    occurrence.  The response of [analyze] carries this very list. *)
Theorem actions_capped_deduped_ordered (text : str) :
  exists acts cands,
    _extract_actions text = Some acts
    /\ scan_lines (stripped_lines text) [] = Some cands
    /\ (forall lang resp,
          analyze {| text := text; lang := lang |} = Some resp ->
          actions resp = acts)
    /\ (length acts <= 10)%nat
    /\ NoDup (lower <$> acts)
    /\ (forall j1 j2 a1 a2, (j1 < j2)%nat ->
          acts !! j1 = Some a1 -> acts !! j2 = Some a2 ->
          exists i1 i2, (i1 < i2)%nat
                        /\ first_occ cands i1 a1 /\ first_occ cands i2 a2)
    /\ (cands = [] \/
        forall j a, acts !! j = Some a -> exists i, first_occ cands i a).
Proof.
  destruct (_extract_actions_eq text) as [Hs He].
  set (cands := filter recorded (stripped_lines text)) in *.
  eexists _, cands. split; [exact He|]. split; [exact Hs|].
  split; [intros lang resp; by apply analyze_actions|].
  split; [rewrite length_take; lia|].
  destruct (negb (truthy cands) && truthy (strip text)) eqn:Hfb.
  { (* the fallback entry alone *)
    apply andb_prop in Hfb as [Hc _]. destruct cands; [|done].
    split; [apply NoDup_singleton|]. split; [|by left].
    intros j1 j2 a1 a2 Hj H1 H2. apply lookup_lt_Some in H2.
    simpl in H2. lia. }
  destruct (dedup_loop_spec cands) as (idx & Hocc & Hinc).
  set (D := dedup_loop cands ∅ []) in *.
  assert (forall j a, take 10 D !! j = Some a ->
            exists i, idx !! j = Some i /\ first_occ cands i a) as Hat.
  { intros j a [Hj _]%lookup_take_Some.
    destruct (Forall2_lookup_r _ _ _ _ _ Hocc Hj) as (i & Hi & Ho). eauto. }
  assert (forall j1 j2 a1 a2, (j1 < j2)%nat ->
            take 10 D !! j1 = Some a1 -> take 10 D !! j2 = Some a2 ->
            exists i1 i2, (i1 < i2)%nat
                          /\ first_occ cands i1 a1 /\ first_occ cands i2 a2)
    as Hord.
  { intros j1 j2 a1 a2 Hj (i1 & Hi1 & Ho1)%Hat (i2 & Hi2 & Ho2)%Hat.
    exists i1, i2. split; [|done]. exact (Hinc _ _ _ _ Hj Hi1 Hi2). }
  split; [|split; [exact Hord|]].
  - apply NoDup_alt. intros j1 j2 k.
    rewrite !list_lookup_fmap.
    destruct (take 10 D !! j1) as [a1|] eqn:E1; [|done].
    destruct (take 10 D !! j2) as [a2|] eqn:E2; [|done].
    cbn. intros [= <-] [= E].
    destruct (Nat.lt_trichotomy j1 j2) as [Hlt|[->|Hlt]]; [|done|].
    + destruct (Hord _ _ _ _ Hlt E1 E2) as (i1 & i2 & Hi & [Hl1 _] & [_ Hf2]).
      by destruct (Hf2 _ _ Hi Hl1).
    + destruct (Hord _ _ _ _ Hlt E2 E1) as (i2 & i1 & Hi & [Hl2 _] & [_ Hf1]).
      by destruct (Hf1 _ _ Hi Hl2).
  - right. intros j a (i & _ & Ho)%Hat. eauto.
Qed.

(** C10.  For every text, each element of the returned list is either the
    fixed fallback string or some line of the text (as [splitlines] cuts
    it) stripped on both sides of space, hyphen, bullet and tab. *)
Theorem actions_are_fallback_or_stripped_lines (text : str) :
  exists acts,
    _extract_actions text = Some acts
    /\ forall a, a ∈ acts ->
         a = fallback
         \/ exists l, l ∈ splitlines text /\ a = strip_chars bullet_chars l.
Proof.
  destruct (_extract_actions_eq text) as [_ He].
  set (cands := filter recorded (stripped_lines text)) in *.
  eexists. split; [exact He|]. intros a Ha.
  apply elem_of_take in Ha as (j & Ha & _).
  destruct (negb (truthy cands) && truthy (strip text)).
  - left. apply list_elem_of_lookup_2 in Ha.
    by apply list_elem_of_singleton in Ha.
  - right. destruct (dedup_loop_spec cands) as (idx & Hocc & _).
    destruct (Forall2_lookup_r _ _ _ _ _ Hocc Ha) as (i & _ & [Hc _]).
    apply list_elem_of_lookup_2 in Hc.
    apply list_elem_of_filter in Hc as [_ Hc].
    apply list_elem_of_fmap in Hc as (l & -> & Hl).
    apply list_elem_of_filter in Hl as [_ Hl]. eauto.
Qed.

End Actions.

(** C6, as stated, fails: from the text ["call me-"] the extractor records
    ["call me"], without the trailing hyphen, which is not the line
    stripped the way the claim describes. *)
Lemma trailing_hyphen_not_preserved :
  scan_lines (stripped_lines (lit "call me-")) [] = Some [lit "call me"]
  /\ ~ (exists l, l ∈ splitlines (lit "call me-")
                  /\ lit "call me" = spec_stripped_line l).
Proof.
  split; [by vm_compute|].
  intros (l & Hl & E). vm_compute in Hl.
  apply list_elem_of_singleton in Hl as ->. vm_compute in E. done.
Qed.

Section Candidates.
Context `{Lower}.

(** C6, amended.  Each line considered by the extractor, and so each
    recorded candidate, is a line of the text from which the characters
    space, hyphen, bullet and tab have been removed at both ends: the line
    is [pre ++ a ++ post] with [pre] and [post] made of those characters
    only, and the candidate [a] neither begins nor ends with one of them.
    Nothing else is removed. *)
Theorem candidates_stripped_both_ends (text : str) :
  exists cands,
    scan_lines (stripped_lines text) [] = Some cands
    /\ forall a, a ∈ cands ->
         a ∈ stripped_lines text
         /\ exists l pre post,
              l ∈ splitlines text
              /\ a = strip_chars bullet_chars l
              /\ l = pre ++ a ++ post
              /\ Forall is_bullet pre /\ Forall is_bullet post
              /\ (forall c, head a = Some c -> ~ is_bullet c)
              /\ (forall c, last a = Some c -> ~ is_bullet c).
Proof.
  destruct (_extract_actions_eq text) as [Hs _].
  eexists. split; [exact Hs|]. intros a [_ Ha]%list_elem_of_filter.
  split; [done|].
  apply list_elem_of_fmap in Ha as (l & -> & Hl).
  apply list_elem_of_filter in Hl as [_ Hl].
  destruct (strip_by_split (in_chars bullet_chars) l) as (pre & post & E & Fpre & Fpost).
  exists l, pre, post. split_and!; try done.
  - intros c Hc%strip_by_head. unfold is_bullet. congruence.
  - intros c Hc%strip_by_last. unfold is_bullet. congruence.
Qed.

(** C2, amended.  For every text with at least one character that is not
    whitespace, if the first loop records no candidate, the returned list
    is exactly the one fallback entry. *)
Theorem fallback_when_nothing_recorded (text : str) :
  nonblank text ->
  scan_lines (stripped_lines text) [] = Some [] ->
  _extract_actions text = Some [fallback].
Proof.
  intros Hnb Hscan. destruct (_extract_actions_eq text) as [Hs He].
  rewrite Hs in Hscan. injection Hscan as Hc. rewrite Hc in He.
  apply strip_nonblank in Hnb. rewrite Hnb in He. exact He.
Qed.

Lemma stripped_lines_blank (text : str) : blank text -> stripped_lines text = [].
Proof.
  intros Hb. unfold stripped_lines.
  assert (Forall blank (splitlines text)) as F
    by (apply splitlines_go_Forall; [constructor|done]).
  induction F as [|l ls Hl _ IH]; [done|].
  rewrite filter_cons_False; [exact IH|].
  unfold strip. rewrite strip_by_all by done. done.
Qed.

(** C5.  For every text made of whitespace only (the empty text included)
    the summary is ["No content provided."], whatever the language, and
    the list of actions is empty; so is the response of [analyze]. *)
Theorem blank_text_no_content (text : str) :
  blank text ->
  (forall lang, _heuristic_summary text lang = Some no_content)
  /\ _extract_actions text = Some []
  /\ (forall lang,
        analyze {| text := text; lang := lang |}
        = Some {| summary := no_content; actions := [] |}).
Proof.
  intros Hb.
  assert (forall lang, _heuristic_summary text lang = Some no_content) as Hsum.
  { intros lang. unfold _heuristic_summary. by rewrite cleaned_blank. }
  assert (_extract_actions text = Some []) as Hact.
  { destruct (_extract_actions_eq text) as [_ He]. rewrite He.
    rewrite stripped_lines_blank by done.
    unfold strip. rewrite strip_by_all by done. done. }
  split_and!; [done|done|].
  intros lang. unfold analyze. cbn [Main.text Main.lang].
  rewrite Hsum, Hact. done.
Qed.

End Candidates.

(** C2, as stated, fails on a text that is not empty but blank: the single
    space records no candidate and yields no entry at all. *)
Lemma blank_text_gets_no_fallback :
  lit " " <> []
  /\ scan_lines (stripped_lines (lit " ")) [] = Some []
  /\ _extract_actions (lit " ") = Some []
  /\ _extract_actions (lit " ") <> Some [fallback].
Proof. by vm_compute. Qed.

Lemma fallback_when_nothing_recorded_witness :
  nonblank (lit "hello world")
  /\ scan_lines (stripped_lines (lit "hello world")) [] = Some []
  /\ _extract_actions (lit "hello world") = Some [fallback].
Proof.
  assert (nonblank (lit "hello world")) as Hnb by (by left).
  assert (scan_lines (stripped_lines (lit "hello world")) [] = Some [])
    as Hscan by (by vm_compute).
  split_and!; [done|done|].
  exact (fallback_when_nothing_recorded (lit "hello world") Hnb Hscan).
Defined.

Lemma blank_text_no_content_witness :
  blank [32; 10; 9]
  /\ _heuristic_summary [32; 10; 9] (lit "te") = Some no_content
  /\ _extract_actions [32; 10; 9] = Some [].
Proof.
  assert (blank [32; 10; 9]) as Hb by (by repeat constructor).
  split_and!; [done| |].
  - exact (proj1 (blank_text_no_content [32; 10; 9] Hb) (lit "te")).
  - exact (proj1 (proj2 (blank_text_no_content [32; 10; 9] Hb))).
Defined.

Section SummaryClaims.
Context `{Lower}.

Lemma _heuristic_summary_shape text lang :
  truthy (cleaned text) = true ->
  exists base,
    _heuristic_summary text lang = Some (prefix_for lang ++ base)
    /\ (re_search sentence_re (cleaned text) = None ->
        base = strip (take 150 (cleaned text)))
    /\ (forall m, re_search sentence_re (cleaned text) = Some m ->
        exists g q, punct q = true /\ base = strip (g ++ [q])).
Proof.
  intros Ht. unfold _heuristic_summary. rewrite Ht. cbn [negb].
  destruct (re_search sentence_re (cleaned text)) as [m|] eqn:E.
  - destruct (sentence_search_group _ _ E) as (g & q & Hg & Hq).
    rewrite Hg. eexists. split; [done|]. split; [done|].
    intros ? [= <-]. eauto.
  - eexists. split; [done|]. split; [done|]. done.
Qed.

Lemma cleaned_not_punct text :
  Forall not_punct text -> Forall not_punct (cleaned text).
Proof.
  intros F. apply Forall_forall. intros c [->|Hc]%cleaned_chars; [done|].
  rewrite Forall_forall in F. by apply F.
Qed.

(** Trimming the first 150 characters of cleaned text removes at most one
    trailing space. *)
Lemma strip_take_cleaned text x :
  cleaned text !! 149%nat = Some x ->
  strip (take 150 (cleaned text))
  = if is_space x then take 149 (cleaned text) else take 150 (cleaned text).
Proof.
  intros Hx. set (c := cleaned text) in *.
  assert (take 150 c = take 149 c ++ [x]) as E by (by apply take_S_r).
  assert (149 < length c)%nat as Hlen by (by eapply lookup_lt_Some).
  destruct (take 149 c) as [|h t149] eqn:E149.
  { apply (f_equal length) in E149. rewrite length_take in E149.
    cbn [length] in E149. lia. }
  assert (is_space h = false) as Hh.
  { apply (cleaned_head text). fold c.
    rewrite <- (take_drop 149 c), E149. done. }
  assert (single_spaced false ((h :: t149) ++ [x]) = true) as Hss.
  { rewrite <- E. apply (single_spaced_app_l _ _ (drop 150 c)).
    rewrite take_drop. apply cleaned_single_spaced. }
  unfold strip, strip_by. rewrite E.
  rewrite (lstrip_by_keep _ _ h) by done.
  destruct (is_space x) eqn:Hsx.
  - rewrite rstrip_by_snoc by done.
    destruct (last (h :: t149)) as [y|] eqn:Hl.
    + apply (rstrip_by_keep _ _ y); [done|].
      by apply (single_spaced_snoc _ _ _ y Hss Hsx).
    + by apply last_None in Hl.
  - apply (rstrip_by_keep _ _ x); [apply last_snoc|done].
Qed.

(** C3, amended.  For every text without ['.'], ['?'] or ['!'] whose
    cleaned form is longer than 150 characters, the summary is the language
    prefix followed by the first 150 characters of the cleaned text,
    trimmed: all 150 of them when the 150th is not a space, the first 149
    when it is. *)
Theorem summary_without_sentence_end (text lang : str) :
  Forall not_punct text ->
  (150 < length (cleaned text))%nat ->
  exists base x,
    _heuristic_summary text lang = Some (prefix_for lang ++ base)
    /\ base = strip (take 150 (cleaned text))
    /\ cleaned text !! 149%nat = Some x
    /\ base = if is_space x then take 149 (cleaned text)
              else take 150 (cleaned text).
Proof.
  intros Fnp Hlen.
  assert (truthy (cleaned text) = true) as Ht.
  { destruct (cleaned text); [simpl in Hlen; lia|done]. }
  destruct (_heuristic_summary_shape text lang Ht) as (base & Hs & Hnone & _).
  destruct (lookup_lt_is_Some_2 (cleaned text) 149 ltac:(lia)) as [x Hx].
  assert (base = strip (take 150 (cleaned text))) as ->.
  { apply Hnone. apply search_from_None. intros j _. apply sentence_run_nil.
    cbn [rest]. apply Forall_drop. by apply cleaned_not_punct. }
  eexists _, x. split_and!; [done|done|done|]. by apply strip_take_cleaned.
Qed.

(** C4, amended.  For every text with at least one character that is not
    whitespace and every language whose lower-cased form starts with
    ["te"], the summary begins with ["[Telugu] "]. *)
Theorem telugu_prefix_on_nonblank_text (text lang : str) :
  nonblank text ->
  startswith (lower lang) (lit "te") = true ->
  exists s,
    _heuristic_summary text lang = Some s
    /\ startswith s telugu_tag = true.
Proof.
  intros Hnb%cleaned_nonblank Hte.
  destruct (_heuristic_summary_shape text lang Hnb) as (base & Hs & _).
  rewrite (prefix_for_te lang Hte) in Hs.
  eexists. split; [exact Hs|]. apply startswith_app.
Qed.

(** C9.  Whenever the cleaned text contains 10 to 200 characters, none of
    them ['.'], ['?'] or ['!'], directly followed by one of these marks,
    the sentence search succeeds: it reports the leftmost such sentence
    [g] with its mark [q'], as group 1, and the summary is the language
    prefix, then [g] without leading whitespace, then that very mark [q'],
    which is its last character. *)
Theorem sentence_summary_keeps_punctuation
    (text lang pre mid post : str) (q : char) :
  cleaned text = pre ++ mid ++ q :: post ->
  Forall not_punct mid ->
  (10 <= length mid <= 200)%nat ->
  punct q = true ->
  exists m pre' g q' post',
    re_search sentence_re (cleaned text) = Some m
    /\ cleaned text = pre' ++ g ++ q' :: post'
    /\ (length pre' <= length pre)%nat
    /\ group 1 m = Some (g ++ [q'])
    /\ punct q' = true /\ Forall not_punct g
    /\ (10 <= length g <= 200)%nat
    /\ _heuristic_summary text lang
       = Some (prefix_for lang ++ lstrip_by is_space g ++ [q'])
    /\ last (prefix_for lang ++ lstrip_by is_space g ++ [q']) = Some q'.
Proof.
  intros Hc Fmid Hlen Hq.
  assert (truthy (cleaned text) = true) as Ht.
  { rewrite Hc. by destruct pre, mid. }
  destruct (search_from_is_Some sentence_re 0 (cleaned text) (length pre))
    as [m Hm].
  { rewrite Hc, length_app. lia. }
  { apply (sentence_run_some _ mid q post); try done.
    cbn [rest]. by rewrite Hc, drop_app_length. }
  destruct (sentence_search_first _ _ Hm)
    as (pre' & g & q' & post' & Hs & Hg & Hq' & Fg & Hlg & Hleft).
  exists m, pre', g, q', post'.
  split_and!; try done; try lia.
  - by apply (Hleft pre mid q post).
  - unfold _heuristic_summary. rewrite Ht. cbn [negb].
    fold (re_search sentence_re (cleaned text)) in Hm. rewrite Hm, Hg. cbn.
    unfold strip. by rewrite strip_by_snoc by (by apply punct_not_space).
  - rewrite !app_assoc. apply last_snoc.
Qed.

End SummaryClaims.

(** C3, as stated, fails when the 150th character of the cleaned text is a
    space: trimming drops it, and the summary has 149 characters. *)
Lemma space_at_150_not_punct : Forall not_punct space_at_150.
Proof.
  apply Forall_app. split; [by apply Forall_replicate|].
  constructor; [done|]. by apply Forall_replicate.
Defined.

Lemma space_at_150_long : (150 < length (cleaned space_at_150))%nat.
Proof. vm_compute. lia. Defined.

Lemma summary_drops_trailing_space :
  space_at_150 <> []
  /\ Forall not_punct space_at_150
  /\ (150 < length (cleaned space_at_150))%nat
  /\ prefix_for (lit "en") = []
  /\ _heuristic_summary space_at_150 (lit "en") = Some (replicate 149 97)
  /\ replicate 149 97 <> take 150 (cleaned space_at_150).
Proof.
  split_and!; try by vm_compute.
  - exact space_at_150_not_punct.
  - exact space_at_150_long.
Qed.

Lemma summary_without_sentence_end_witness :
  exists base x,
    _heuristic_summary space_at_150 (lit "te")
    = Some (prefix_for (lit "te") ++ base)
    /\ base = strip (take 150 (cleaned space_at_150))
    /\ cleaned space_at_150 !! 149%nat = Some x
    /\ base = if is_space x then take 149 (cleaned space_at_150)
              else take 150 (cleaned space_at_150).
Proof.
  exact (summary_without_sentence_end space_at_150 (lit "te")
           space_at_150_not_punct space_at_150_long).
Defined.

(** C4, as stated, fails on blank text: the fixed message comes back
    without the tag. *)
Lemma telugu_prefix_absent_on_empty_text :
  startswith (lower (lit "te")) (lit "te") = true
  /\ _heuristic_summary (lit "") (lit "te") = Some no_content
  /\ startswith no_content telugu_tag = false.
Proof. by vm_compute. Qed.

Lemma telugu_prefix_on_nonblank_text_witness :
  nonblank (lit "Hi all") /\ startswith (lower (lit "TE-in")) (lit "te") = true
  /\ exists s, _heuristic_summary (lit "Hi all") (lit "TE-in") = Some s
               /\ startswith s telugu_tag = true.
Proof.
  assert (nonblank (lit "Hi all")) as Hnb by (by left).
  assert (startswith (lower (lit "TE-in")) (lit "te") = true) as Hte
    by (by vm_compute).
  split_and!; [done|done|].
  exact (telugu_prefix_on_nonblank_text (lit "Hi all") (lit "TE-in") Hnb Hte).
Defined.

Lemma sentence_summary_keeps_punctuation_witness :
  exists m pre' g q' post',
    re_search sentence_re (cleaned (lit "Well.  Call the office today! Bye"))
    = Some m
    /\ cleaned (lit "Well.  Call the office today! Bye")
       = pre' ++ g ++ q' :: post'
    /\ (length pre' <= length (lit "Well."))%nat
    /\ group 1 m = Some (g ++ [q'])
    /\ punct q' = true /\ Forall not_punct g
    /\ (10 <= length g <= 200)%nat
    /\ _heuristic_summary (lit "Well.  Call the office today! Bye") (lit "en")
       = Some (prefix_for (lit "en") ++ lstrip_by is_space g ++ [q'])
    /\ last (prefix_for (lit "en") ++ lstrip_by is_space g ++ [q']) = Some q'.
Proof.
  apply (sentence_summary_keeps_punctuation
           (lit "Well.  Call the office today! Bye") (lit "en")
           (lit "Well.") (lit " Call the office today") (lit " Bye") 33).
  - by vm_compute.
  - by repeat constructor.
  - vm_compute. lia.
  - reflexivity.
Defined.

Section Handler.
Context `{Lower}.

Lemma _extract_actions_total text : is_Some (_extract_actions text).
Proof. destruct (_extract_actions_eq text) as [_ ->]. by eexists. Qed.

(** On the initial store the first loop does what [scan_lines] does, and
    leaves the store as it was. *)
Lemma scan_lines_m_initial lines acc :
  scan_lines_m lines acc initial_globals
  = (fun cands => (cands, initial_globals)) <$> scan_lines lines acc.
Proof.
  revert acc. induction lines as [|line lines IH]; intros acc; [done|].
  cbn [scan_lines_m scan_lines].
  unfold bind at 1. unfold records_m, bind at 1.
  unfold keyword_hit_m, bind, read_action_keywords, ret.
  cbn [g_action_keywords initial_globals].
  unfold records, keyword_hit.
  destruct (existsb _ action_keywords); cbn.
  - apply IH.
  - unfold lift. destruct (imperative line) as [b|]; cbn; [apply IH|done].
Qed.

Lemma analyze_m_initial req :
  analyze_m req initial_globals
  = (fun resp => (resp, initial_globals)) <$> analyze req.
Proof.
  unfold analyze_m, analyze, bind at 1, lift.
  destruct (_heuristic_summary _ _) as [s|]; cbn; [|done].
  unfold bind at 1, _extract_actions_m, _extract_actions, bind at 1.
  rewrite scan_lines_m_initial.
  by destruct (scan_lines (stripped_lines (text req)) []).
Qed.

(** Whatever the store holds, the first loop answers and leaves the store
    as it found it. *)
Lemma scan_lines_m_frame g lines acc :
  exists cands, scan_lines_m lines acc g = Some (cands, g).
Proof.
  revert acc. induction lines as [|line lines IH]; intros acc;
    [by eexists|].
  cbn [scan_lines_m]. unfold bind at 1. unfold records_m, bind at 1.
  unfold keyword_hit_m, bind, read_action_keywords, ret.
  destruct (existsb _ (g_action_keywords g)); [apply IH|].
  unfold lift. destruct (imperative_total line) as [b ->]. apply IH.
Qed.

Lemma analyze_m_frame g req :
  exists resp, analyze_m req g = Some (resp, g).
Proof.
  unfold analyze_m, bind at 1, lift.
  destruct (_heuristic_summary_total (text req)
              (opt_or_else (lang req) (lit "en"))) as [s ->].
  unfold bind at 1, _extract_actions_m, bind at 1.
  destruct (scan_lines_m_frame g (stripped_lines (text req)) [])
    as [cands ->].
  by eexists.
Qed.

(** A run answers every request as [analyze_m] does on the store the run
    started from, and ends on that store. *)
Lemma serve_frame g reqs :
  exists resps,
    serve reqs g = Some (resps, g)
    /\ Forall2 (fun req resp => analyze_m req g = Some (resp, g)) reqs resps.
Proof.
  induction reqs as [|req reqs (resps & Hs & F)]; [by exists []|].
  destruct (analyze_m_frame g req) as [resp Hr].
  exists (resp :: resps). split; [|by constructor].
  cbn [serve]. unfold bind at 1. rewrite Hr.
  unfold bind at 1. by rewrite Hs.
Qed.

(** C7.  No hidden state.  In a run of the server, from the initial store
    or from any other, whatever requests come before and in between, two
    requests with equal [text] and equal [lang] get the same response,
    summary and actions alike: every request of the run is answered, the
    store the run leaves is the store it started from, and the two
    responses are one and the same.  From the initial store it is the
    response [analyze] computes from the request alone. *)
Theorem analyze_deterministic
    (g : globals) (before between : list AnalyzeRequest)
    (req1 req2 : AnalyzeRequest) :
  text req1 = text req2 -> lang req1 = lang req2 ->
  exists resps1 resp resps2,
    serve (before ++ req1 :: between ++ [req2]) g
    = Some (resps1 ++ resp :: resps2 ++ [resp], g)
    /\ length resps1 = length before
    /\ length resps2 = length between
    /\ analyze_m req1 g = Some (resp, g)
    /\ analyze_m req2 g = Some (resp, g)
    /\ (g = initial_globals ->
        analyze req1 = Some resp /\ analyze req2 = Some resp).
Proof.
  intros Ht Hl.
  destruct (serve_frame g (before ++ req1 :: between ++ [req2]))
    as (resps & Hs & F).
  apply Forall2_app_inv_l in F as (resps1 & rest1 & F1 & F & ->).
  apply Forall2_cons_inv_l in F as (resp & rest2 & Hr1 & F & ->).
  apply Forall2_app_inv_l in F as (resps2 & rest3 & F2 & F & ->).
  apply Forall2_cons_inv_l in F as (resp' & rest4 & Hr2 & F & ->).
  apply Forall2_nil_inv_l in F as ->.
  assert (req2 = req1) as E.
  { destruct req1, req2. cbn in Ht, Hl. by subst. }
  subst req2. rewrite Hr1 in Hr2. injection Hr2 as <-.
  exists resps1, resp, resps2. split_and!; try done.
  - symmetry. by eapply Forall2_length.
  - symmetry. by eapply Forall2_length.
  - intros ->. rewrite analyze_m_initial in Hr1.
    destruct (analyze req1) as [r|]; [|done]. cbn in Hr1.
    by injection Hr1 as <-.
Qed.


End Handler.

Lemma analyze_deterministic_witness :
  exists resps1 resp resps2,
    serve ([ {| text := lit "Call Bob"; lang := None |} ]
           ++ {| text := lit "Buy milk."; lang := Some (lit "te") |}
           :: [ {| text := lit "hello world"; lang := Some (lit "en") |} ]
           ++ [ {| text := lit "Buy milk."; lang := Some (lit "te") |} ])
      initial_globals
    = Some (resps1 ++ resp :: resps2 ++ [resp], initial_globals)
    /\ length resps1 = 1%nat
    /\ length resps2 = 1%nat
    /\ analyze_m {| text := lit "Buy milk."; lang := Some (lit "te") |}
         initial_globals = Some (resp, initial_globals)
    /\ analyze_m {| text := lit "Buy milk."; lang := Some (lit "te") |}
         initial_globals = Some (resp, initial_globals)
    /\ (initial_globals = initial_globals ->
        analyze {| text := lit "Buy milk."; lang := Some (lit "te") |} = Some resp
        /\ analyze {| text := lit "Buy milk."; lang := Some (lit "te") |} = Some resp).
Proof.
  exact (analyze_deterministic initial_globals
           [ {| text := lit "Call Bob"; lang := None |} ]
           [ {| text := lit "hello world"; lang := Some (lit "en") |} ]
           {| text := lit "Buy milk."; lang := Some (lit "te") |}
           {| text := lit "Buy milk."; lang := Some (lit "te") |}
           eq_refl eq_refl).
Defined.



(** * Further properties of the summary *)

Lemma strip_by_keep p (s : str) a b :
  head s = Some a -> p a = false -> last s = Some b -> p b = false ->
  strip_by p s = s.
Proof.
  intros Ha Hpa Hb Hpb. unfold strip_by.
  rewrite (lstrip_by_keep p s a) by done. by eapply rstrip_by_keep.
Qed.

Lemma strip_by_length p (s : str) : (length (strip_by p s) <= length s)%nat.
Proof.
  destruct (strip_by_split p s) as (pre & post & E & _).
  rewrite E at 2. rewrite !length_app. lia.
Qed.

Lemma single_spaced_head b (s : str) c :
  head s = Some c -> is_space c = false ->
  single_spaced b s = single_spaced false s.
Proof.
  destruct s as [|a t]; [done|]. intros [= ->] Hc. cbn [single_spaced].
  by rewrite Hc.
Qed.

Lemma single_spaced_space b (s : str) c :
  single_spaced b s = true -> c ∈ s -> is_space c = true -> c = SPACE.
Proof.
  revert b. induction s as [|a s IH]; intros b Hs Hc Hsp.
  - by apply elem_of_nil in Hc.
  - cbn [single_spaced] in Hs. apply elem_of_cons in Hc as [->|Hc].
    + rewrite Hsp in Hs.
      by apply andb_prop in Hs as [[->%N.eqb_eq _]%andb_prop _].
    + destruct (is_space a).
      * apply andb_prop in Hs as [_ Hs]. by eapply IH.
      * by eapply IH.
Qed.

Lemma single_spaced_app b (s t : str) :
  single_spaced b s = true -> single_spaced false t = true ->
  (forall c, head t = Some c -> is_space c = false) ->
  single_spaced b (s ++ t) = true.
Proof.
  intros Hs Ht Hh. revert b Hs.
  induction s as [|a s IH]; intros b Hs; cbn [app].
  - destruct t as [|c t]; [done|]. by rewrite (single_spaced_head b _ c); auto.
  - cbn [single_spaced] in *. destruct (is_space a).
    + apply andb_prop in Hs as [-> Hs]. by rewrite IH.
    + by apply IH.
Qed.

(** Text that is single-spaced is left alone by [re.sub(r"\s+", " ", _)]. *)
Lemma sub_ws_single_spaced_id b (s : str) :
  single_spaced b s = true -> sub_ws b s = s.
Proof.
  revert b. induction s as [|a s IH]; intros b Hs; [done|].
  cbn [single_spaced sub_ws] in *. destruct (is_space a).
  - apply andb_prop in Hs as [[->%N.eqb_eq Hb]%andb_prop Hs].
    destruct b; [done|]. by rewrite IH.
  - by rewrite IH.
Qed.

(** The texts [cleaned] leaves alone: single-spaced, and neither beginning
    nor ending with whitespace. *)
Lemma cleaned_id (s : str) :
  single_spaced false s = true ->
  (forall c, head s = Some c -> is_space c = false) ->
  (forall c, last s = Some c -> is_space c = false) ->
  cleaned s = s.
Proof.
  intros Hs Hh Hl. unfold cleaned. rewrite sub_ws_single_spaced_id by done.
  destruct (head s) as [a|] eqn:Ha; [|by apply head_None in Ha as ->].
  destruct (last s) as [z|] eqn:Hz; [|by apply last_None in Hz as ->].
  apply (strip_by_keep _ _ a z); auto.
Qed.

Lemma cleaned_last text c :
  last (cleaned text) = Some c -> is_space c = false.
Proof. apply strip_by_last. Qed.

Lemma cleaned_idempotent text : cleaned (cleaned text) = cleaned text.
Proof.
  apply cleaned_id;
    [apply cleaned_single_spaced | apply cleaned_head | apply cleaned_last].
Qed.

Lemma is_linebreak_space c : is_linebreak c = true -> is_space c = true.
Proof.
  unfold is_linebreak, is_space.
  rewrite !orb_true_iff, !andb_true_iff, !N.leb_le, !N.eqb_eq. lia.
Qed.

(** Where a search reports a sentence: the subject splits around it. *)
Lemma sentence_search_spec s m :
  re_search sentence_re s = Some m ->
  exists pre g q post,
    s = pre ++ g ++ q :: post
    /\ group 1 m = Some (g ++ [q])
    /\ punct q = true /\ Forall not_punct g
    /\ (10 <= length g <= 200)%nat.
Proof.
  intros (j & _ & Hm)%search_from_Some.
  apply sentence_run_elem in Hm as (g & q & t & Hr & Hq & Fg & Hlen & Hg).
  cbn [rest] in Hr. exists (take j s), g, q, t.
  split_and!; try done; try lia. by rewrite <- Hr, take_drop.
Qed.

Section SummaryCases.
Context `{Lower}.

(** The three ways [_heuristic_summary] answers. *)
Lemma _heuristic_summary_cases text lang :
  (cleaned text = [] /\ _heuristic_summary text lang = Some no_content)
  \/ (exists pre g q post,
        cleaned text = pre ++ g ++ q :: post
        /\ is_Some (re_search sentence_re (cleaned text))
        /\ punct q = true /\ Forall not_punct g
        /\ (10 <= length g <= 200)%nat
        /\ _heuristic_summary text lang
           = Some (prefix_for lang ++ strip (g ++ [q])))
  \/ (cleaned text <> []
      /\ re_search sentence_re (cleaned text) = None
      /\ _heuristic_summary text lang
         = Some (prefix_for lang ++ strip (take 150 (cleaned text)))).
Proof.
  unfold _heuristic_summary.
  destruct (cleaned text) as [|c0 r0] eqn:Ec; [by left|]. right.
  rewrite <- Ec. cbn [truthy negb].
  assert (truthy (cleaned text) = true) as -> by (by rewrite Ec).
  cbn [negb].
  destruct (re_search sentence_re (cleaned text)) as [m|] eqn:E.
  - left. destruct (sentence_search_spec _ _ E) as (pre & g & q & post & ? & Hg & ?).
    exists pre, g, q, post. rewrite Hg. split_and!; try done; try tauto.
  - right. split_and!; try done. by rewrite Ec.
Qed.

Lemma prefix_for_cases lang : prefix_for lang = telugu_tag \/ prefix_for lang = [].
Proof. unfold prefix_for. destruct (startswith _ _); auto. Qed.

End SummaryCases.

Lemma search_from_head r i s m :
  head (run r (MState i s [])) = Some m -> search_from r i s = Some m.
Proof. intros Hm. destruct s; cbn [search_from]; by rewrite Hm. Qed.

(** At a sentence, the greedy run takes all of it. *)
Lemma sentence_run_head st g q t :
  rest st = g ++ q :: t -> Forall not_punct g -> punct q = true ->
  (10 <= length g <= 200)%nat ->
  exists m, head (run sentence_re st) = Some m /\ group 1 m = Some (g ++ [q]).
Proof.
  intros Hr Fg Hq Hlen.
  assert (run_length (fun c => negb (punct c)) (rest st) = length g) as Hrl.
  { rewrite Hr. apply run_length_app.
    - eapply Forall_impl; [exact Fg|]. intros c Hc. by apply negb_true_iff.
    - intros c [= <-]. by rewrite Hq. }
  set (m1 := advance (length g) st).
  assert (head (run (Repeat (fun c => negb (punct c)) 10 (Some 200%nat)) st)
          = Some m1) as H1.
  { cbn [run]. rewrite Hrl. apply (head_fmap (fun k => advance k st)).
    unfold cap. rewrite Nat.min_r by lia. apply countdown_head. lia. }
  assert (head (run (Class_ punct) m1) = Some (advance 1 m1)) as H2.
  { subst m1. cbn [run advance rest]. by rewrite Hr, drop_app_length, Hq. }
  pose proof (run_Group_head 1 _ st _ (run_Cat_head _ _ _ _ _ H1 H2)) as H3.
  eexists. split; [exact H3|]. unfold group. cbn.
  replace (pos st + length g + 1 - pos st)%nat with (S (length g)) by lia.
  rewrite Hr. f_equal.
  rewrite (take_S_r _ _ q) by (by rewrite list_lookup_middle).
  by rewrite take_app_length.
Qed.

Section SummaryExtras.
Context `{Lower}.

(** X1.  The summary is never empty and never longer than 210 characters:
    the tag (9), then at most 200 characters and a mark, or at most 150
    characters, or the fixed message. *)
Theorem summary_nonempty_bounded (text lang : str) :
  exists s,
    _heuristic_summary text lang = Some s
    /\ (1 <= length s <= 210)%nat.
Proof.
  assert (length (prefix_for lang) <= 9)%nat as Hp
    by (destruct (prefix_for_cases lang) as [-> | ->]; cbn; lia).
  destruct (_heuristic_summary_cases text lang)
    as [[_ ->]|[(pre & g & q & post & _ & _ & Hq & _ & Hlen & ->)
               |(Hne & _ & ->)]].
  - eexists. split; [done|]. cbn. lia.
  - eexists. split; [done|]. unfold strip.
    rewrite strip_by_snoc by (by apply punct_not_space).
    rewrite !length_app. cbn [length].
    destruct (lstrip_by_split is_space g) as (l & E & _).
    apply (f_equal length) in E. rewrite length_app in E. lia.
  - eexists. split; [done|]. rewrite length_app.
    pose proof (strip_by_length is_space (take 150 (cleaned text))) as Hl.
    rewrite length_take in Hl. fold (strip (take 150 (cleaned text))) in Hl.
    split; [|lia].
    destruct (cleaned text) as [|c r] eqn:Ec; [done|].
    assert (c ∈ strip (take 150 (c :: r))) as Hc.
    { apply strip_by_keeps; [left|]. apply (cleaned_head text). by rewrite Ec. }
    destruct (strip (take 150 (c :: r))); [by apply elem_of_nil in Hc|].
    cbn [length]. lia.
Qed.

(** X2.  The summary is in cleaned form: cleaning it again changes nothing.
    It neither begins nor ends with whitespace, its only whitespace is
    single spaces, and so it holds no line break: it is one line. *)
Theorem summary_is_cleaned_one_line (text lang : str) :
  exists s,
    _heuristic_summary text lang = Some s
    /\ cleaned s = s
    /\ Forall (fun c => is_linebreak c = false) s.
Proof.
  assert (forall s : str, cleaned s = s ->
            Forall (fun c => is_linebreak c = false) s) as Hlb.
  { intros s Hs. apply Forall_forall. intros c Hc.
    destruct (is_linebreak c) eqn:Hl; [|done].
    pose proof (is_linebreak_space c Hl) as Hsp.
    pose proof (cleaned_single_spaced s) as Hss. rewrite Hs in Hss.
    by rewrite (single_spaced_space _ _ _ Hss Hc Hsp) in Hl. }
  assert (forall X pre post : str,
            cleaned text = pre ++ X ++ post -> strip X <> [] ->
            cleaned (prefix_for lang ++ strip X) = prefix_for lang ++ strip X)
    as Hfix.
  { intros X pre post Ec Hne.
    assert (single_spaced false (strip X) = true) as Hss.
    { pose proof (cleaned_single_spaced text) as Hc. rewrite Ec in Hc.
      apply single_spaced_app_r, single_spaced_app_l in Hc.
      destruct (strip_by_split is_space X) as (a & b & E & _).
      rewrite E in Hc.
      by apply single_spaced_app_r, single_spaced_app_l in Hc. }
    assert (forall c, head (strip X) = Some c -> is_space c = false) as Hh
      by apply strip_by_head.
    assert (forall c, last (strip X) = Some c -> is_space c = false) as Hl
      by apply strip_by_last.
    apply cleaned_id.
    - destruct (prefix_for_cases lang) as [-> | ->]; [|done].
      by apply single_spaced_app.
    - destruct (prefix_for_cases lang) as [-> | ->]; [|done].
      by intros c [= <-].
    - intros c. rewrite last_app.
      destruct (last (strip X)) eqn:El; [by intros [= <-]; apply Hl|].
      by apply last_None in El. }
  destruct (_heuristic_summary_cases text lang)
    as [[_ ->]|[(pre & g & q & post & Ec & _ & Hq & _ & _ & ->)
               |(Hne & _ & ->)]].
  - eexists. split; [done|]. split; [by vm_compute|]. by apply Hlb.
  - eexists. split; [done|].
    assert (cleaned (prefix_for lang ++ strip (g ++ [q]))
            = prefix_for lang ++ strip (g ++ [q])) as Hc.
    { apply (Hfix _ pre post); [by rewrite Ec, <- !app_assoc|].
      unfold strip. rewrite strip_by_snoc by (by apply punct_not_space).
      by destruct (lstrip_by is_space g). }
    split; [done|]. by apply Hlb.
  - eexists. split; [done|].
    assert (cleaned (prefix_for lang ++ strip (take 150 (cleaned text)))
            = prefix_for lang ++ strip (take 150 (cleaned text))) as Hc.
    { apply (Hfix _ [] (drop 150 (cleaned text))); [by rewrite take_drop|].
      destruct (cleaned text) as [|c r] eqn:Ec; [done|].
      apply (not_nil_elem _ c). apply strip_by_keeps; [left|].
      apply (cleaned_head text). by rewrite Ec. }
    split; [done|]. by apply Hlb.
Qed.

(** X3.  Cleaning is idempotent, and the summary only depends on the cleaned
    text: summarising the cleaned text gives the summary of the text. *)
Theorem summary_of_cleaned_text (text lang : str) :
  cleaned (cleaned text) = cleaned text
  /\ _heuristic_summary (cleaned text) lang = _heuristic_summary text lang.
Proof.
  split; [apply cleaned_idempotent|].
  unfold _heuristic_summary. by rewrite cleaned_idempotent.
Qed.

(** X4.  When the cleaned text begins with a sentence, 10 to 200 characters
    without ['.'], ['?'] or ['!'] followed by one of these marks, the
    summary is the language prefix and exactly that sentence, mark
    included. *)
Theorem summary_is_leading_sentence (text lang g post : str) (q : char) :
  cleaned text = g ++ q :: post ->
  Forall not_punct g -> (10 <= length g <= 200)%nat -> punct q = true ->
  _heuristic_summary text lang = Some (prefix_for lang ++ g ++ [q]).
Proof.
  intros Ec Fg Hlen Hq.
  destruct (sentence_run_head (MState 0 (cleaned text) []) g q post)
    as (m & Hm & Hg); try done.
  apply search_from_head in Hm. unfold _heuristic_summary.
  assert (truthy (cleaned text) = true) as -> by (rewrite Ec; by destruct g).
  cbn [negb]. unfold re_search. rewrite Hm, Hg. cbn. do 2 f_equal.
  unfold strip. rewrite strip_by_snoc by (by apply punct_not_space).
  f_equal. destruct g as [|c g']; [done|].
  apply (lstrip_by_keep _ _ c); [done|].
  apply (cleaned_head text). by rewrite Ec.
Qed.

(** X5.  A text without ['.'], ['?'] or ['!'] whose cleaned form is not
    empty and has at most 150 characters is summarised by its whole cleaned
    form. *)
Theorem summary_is_whole_short_text (text lang : str) :
  Forall not_punct text -> nonblank text ->
  (length (cleaned text) <= 150)%nat ->
  _heuristic_summary text lang = Some (prefix_for lang ++ cleaned text).
Proof.
  intros Fnp Hnb%cleaned_nonblank Hlen.
  destruct (_heuristic_summary_shape text lang Hnb) as (base & -> & Hnone & _).
  rewrite Hnone.
  - rewrite take_ge by done. do 2 f_equal.
    destruct (head (cleaned text)) as [a|] eqn:Ha;
      [|apply head_None in Ha; by rewrite Ha in Hnb].
    destruct (last (cleaned text)) as [z|] eqn:Hz;
      [|apply last_None in Hz; by rewrite Hz in Hnb].
    apply (strip_by_keep _ _ a z); try done.
    + by apply (cleaned_head text).
    + by apply (cleaned_last text).
  - apply search_from_None. intros j _. apply sentence_run_nil.
    cbn [rest]. apply Forall_drop. by apply cleaned_not_punct.
Qed.

(** X6.  The three answers of the summary generator.  Either the text is
    blank and the answer is the fixed message; or the cleaned text holds a
    sentence (10 to 200 characters without mark, then a mark) and the
    answer is the prefix and one such sentence, trimmed; or it holds none
    and the answer is the prefix and the first 150 characters, trimmed. *)
Theorem summary_trichotomy (text lang : str) :
  let sentence_at (pre g : str) (q : char) (post : str) :=
    cleaned text = pre ++ g ++ q :: post
    /\ punct q = true /\ Forall not_punct g /\ (10 <= length g <= 200)%nat in
  (blank text /\ _heuristic_summary text lang = Some no_content)
  \/ (nonblank text
      /\ exists pre g q post,
           sentence_at pre g q post
           /\ _heuristic_summary text lang
              = Some (prefix_for lang ++ strip (g ++ [q])))
  \/ (nonblank text
      /\ (forall pre g q post, ~ sentence_at pre g q post)
      /\ _heuristic_summary text lang
         = Some (prefix_for lang ++ strip (take 150 (cleaned text)))).
Proof.
  intros sentence_at.
  destruct (_heuristic_summary_cases text lang)
    as [[Ec Hs]|[(pre & g & q & post & Ec & _ & Hq & Fg & Hlen & Hs)
                |(Hne & Hnone & Hs)]].
  - left. split; [|done].
    unfold blank. apply Forall_forall. intros c Hc.
    destruct (is_space c) eqn:Hsp; [done|].
    assert (nonblank text) as Hnb by (apply Exists_exists; eauto).
    apply cleaned_nonblank in Hnb. by rewrite Ec in Hnb.
  - right. left. split.
    + apply cleaned_nonblank. rewrite Ec. by destruct pre, g.
    + exists pre, g, q, post. done.
  - right. right. split; [|split; [|done]].
    + apply cleaned_nonblank. by destruct (cleaned text).
    + intros pre g q post (Ec & Hq & Fg & Hlen).
      destruct (search_from_is_Some sentence_re 0 (cleaned text) (length pre))
        as [m Hm].
      * rewrite Ec, length_app. lia.
      * apply (sentence_run_some _ g q post); try done.
        cbn [rest]. by rewrite Ec, drop_app_length.
      * unfold re_search in Hnone. congruence.
Qed.

(** X7.  A language that is absent, empty or ["en"] gives the same
    response, and its summary carries no tag: for text that is not blank
    the summary is a piece of the cleaned text. *)
Theorem default_language_untagged (text : str) :
  analyze {| text := text; lang := None |}
  = analyze {| text := text; lang := Some (lit "en") |}
  /\ analyze {| text := text; lang := Some [] |}
     = analyze {| text := text; lang := Some (lit "en") |}
  /\ (cleaned text = [] \/
      exists s pre post,
        _heuristic_summary text (lit "en") = Some s
        /\ cleaned text = pre ++ s ++ post).
Proof.
  split; [done|]. split; [done|].
  assert (prefix_for (lit "en") = []) as Hp.
  { unfold prefix_for, or_else. cbn [truthy lit].
    rewrite lower_ascii by (repeat constructor; by vm_compute). done. }
  destruct (_heuristic_summary_cases text (lit "en"))
    as [[Ec _]|[(pre & g & q & post & Ec & _ & _ & _ & _ & Hs)
               |(Hne & _ & Hs)]]; [by left| |]; right; rewrite Hp in Hs.
  - destruct (strip_by_split is_space (g ++ [q])) as (a & b & E & _).
    exists (strip (g ++ [q])), (pre ++ a), (b ++ post).
    split; [done|]. rewrite Ec.
    replace (g ++ q :: post) with ((g ++ [q]) ++ post)
      by (by rewrite <- app_assoc).
    rewrite E at 1. by rewrite <- !app_assoc.
  - destruct (strip_by_split is_space (take 150 (cleaned text)))
      as (a & b & E & _).
    exists (strip (take 150 (cleaned text))), a, (b ++ drop 150 (cleaned text)).
    split; [done|]. rewrite <- (take_drop 150 (cleaned text)) at 1.
    rewrite E at 1. by rewrite <- !app_assoc.
Qed.

End SummaryExtras.

(** * Further properties of the action extractor *)

Lemma strip_by_nil_inv p (s : str) :
  strip_by p s = [] -> Forall (fun c => p c = true) s.
Proof.
  intros E. destruct (strip_by_split p s) as (pre & post & Es & Fpre & Fpost).
  rewrite Es, E. apply Forall_app. split; [done|]. by apply Forall_app.
Qed.

Lemma blank_or_nonblank (s : str) : blank s \/ nonblank s.
Proof.
  destruct (truthy (strip s)) eqn:E.
  - right. by apply strip_nonblank.
  - left. apply strip_by_nil_inv. fold (strip s). by destruct (strip s).
Qed.

Lemma blank_not_nonblank (s : str) : blank s -> nonblank s -> False.
Proof.
  intros Hb (c & Hc & Hs)%Exists_exists. unfold blank in Hb.
  rewrite Forall_forall in Hb. apply Hb in Hc. congruence.
Qed.

Lemma contains_app (k a b : str) : contains k (a ++ k ++ b) = true.
Proof.
  induction a as [|x a IH]; cbn [app].
  - destruct (k ++ b) eqn:E; cbn [contains];
      rewrite <- E, startswith_app; done.
  - cbn [contains]. rewrite IH. apply orb_true_r.
Qed.

Section DedupExtras.
Context `{Lower}.

(** The second loop only appends to [deduped], and afterwards every action
    it has visited has its lower-cased content in the result. *)
Lemma dedup_loop_covers actions :
  forall seen deduped,
    (forall k, k ∈ seen <-> k ∈ lower <$> deduped) ->
    (exists more, dedup_loop actions seen deduped = deduped ++ more)
    /\ (forall a, a ∈ actions ->
          lower a ∈ lower <$> dedup_loop actions seen deduped).
Proof.
  induction actions as [|a actions IH]; intros seen deduped Hseen;
    cbn [dedup_loop].
  - split; [exists []; by rewrite app_nil_r|]. by intros a ?%elem_of_nil.
  - case_decide as Hk.
    + destruct (IH seen deduped Hseen) as [[more Hm] Hcov].
      split; [by exists more|].
      intros b [->|Hb]%elem_of_cons; [|by apply Hcov].
      rewrite Hm, fmap_app, elem_of_app. left. by apply Hseen.
    + destruct (IH ({[lower a]} ∪ seen) (deduped ++ [a])) as [[more Hm] Hcov].
      { intros k. rewrite fmap_app, elem_of_app, elem_of_union,
          elem_of_singleton, <- Hseen. cbn.
        rewrite list_elem_of_singleton. tauto. }
      split; [exists (a :: more); by rewrite Hm, <- app_assoc|].
      intros b [->|Hb]%elem_of_cons; [|by apply Hcov].
      rewrite Hm, !fmap_app, !elem_of_app. left. right. cbn. left.
Qed.

Lemma dedup_loop_length actions seen deduped :
  (length (dedup_loop actions seen deduped)
   <= length deduped + length actions)%nat.
Proof.
  revert seen deduped. induction actions as [|a actions IH];
    intros seen deduped; cbn [dedup_loop length]; [lia|].
  case_decide.
  - etrans; [apply IH|]. lia.
  - etrans; [apply IH|]. rewrite length_app. cbn [length]. lia.
Qed.

(** X8.  The extractor returns the empty list exactly for blank text: any
    text with a character that is not whitespace gets at least one
    action. *)
Theorem actions_empty_iff_blank (text : str) :
  exists acts,
    _extract_actions text = Some acts
    /\ (acts = [] <-> blank text).
Proof.
  destruct (_extract_actions_eq text) as [_ He].
  set (cands := filter recorded (stripped_lines text)) in *.
  eexists. split; [exact He|]. split.
  - intros Hnil. destruct (blank_or_nonblank text) as [?|Hnb]; [done|].
    exfalso. apply strip_nonblank in Hnb. rewrite Hnb in Hnil.
    destruct cands as [|a cands'] eqn:Ec; [done|].
    cbn [truthy negb andb] in Hnil.
    destruct (dedup_loop (a :: cands') ∅ []) as [|d D] eqn:Ed; [|done].
    by apply dedup_loop_nil_inv in Ed.
  - intros Hb. subst cands. rewrite stripped_lines_blank by done.
    unfold strip. rewrite strip_by_all by done. done.
Qed.

(** X9.  The first recorded candidate is always the first action
    returned. *)
Theorem first_candidate_leads (text a : str) (cands : list str) :
  scan_lines (stripped_lines text) [] = Some (a :: cands) ->
  exists acts, _extract_actions text = Some acts /\ head acts = Some a.
Proof.
  intros Hscan. destruct (_extract_actions_eq text) as [Hs He].
  rewrite Hs in Hscan. injection Hscan as Hc. rewrite Hc in He.
  eexists. split; [exact He|]. cbn [truthy negb andb].
  destruct (dedup_loop_covers (a :: cands) ∅ []) as [_ Hcov].
  { intros k. cbn. by rewrite elem_of_nil, elem_of_empty. }
  cbn [dedup_loop] in *.
  rewrite decide_False in * by apply not_elem_of_empty.
  destruct (dedup_loop_covers cands ({[lower a]} ∪ ∅) ([] ++ [a]))
    as [[more ->] _]; [|done].
  intros k. cbn.
  rewrite list_elem_of_singleton, elem_of_union, elem_of_singleton,
    elem_of_empty. tauto.
Qed.

(** X10.  When at most 10 candidates are recorded, none is lost but to
    deduplication: every candidate has an action with the same lower-cased
    content. *)
Theorem candidates_all_represented (text : str) (cands : list str) :
  scan_lines (stripped_lines text) [] = Some cands ->
  (length cands <= 10)%nat ->
  exists acts,
    _extract_actions text = Some acts
    /\ forall a, a ∈ cands -> exists d, d ∈ acts /\ lower d = lower a.
Proof.
  intros Hscan Hlen. destruct (_extract_actions_eq text) as [Hs He].
  rewrite Hs in Hscan. injection Hscan as Hc. rewrite Hc in He.
  eexists. split; [exact He|]. intros a Ha.
  assert (truthy cands = true) as -> by (by destruct cands; [apply elem_of_nil in Ha|]).
  cbn [negb andb].
  rewrite take_ge.
  - destruct (dedup_loop_covers cands ∅ []) as [_ Hcov].
    { intros k. cbn. by rewrite elem_of_nil, elem_of_empty. }
    apply Hcov in Ha. apply list_elem_of_fmap in Ha as (d & Hd & Hin). eauto.
  - pose proof (dedup_loop_length cands ∅ []) as Hl. cbn [length] in Hl. lia.
Qed.

(** X11.  The keyword test is case-insensitive and looks for substrings: an
    ASCII line in which a keyword occurs, in any mix of cases and even
    inside a longer word, is recorded; and so it is a candidate of every
    text that has it among its stripped lines. *)
Theorem keyword_line_recorded (k pre k' post : str) :
  k ∈ action_keywords ->
  map ascii_lower k' = k ->
  Forall is_ascii (pre ++ k' ++ post) ->
  records (pre ++ k' ++ post) = Some true
  /\ forall text,
       pre ++ k' ++ post ∈ stripped_lines text ->
       exists cands,
         scan_lines (stripped_lines text) [] = Some cands
         /\ pre ++ k' ++ post ∈ cands.
Proof.
  intros Hk Hlow Hascii.
  assert (records (pre ++ k' ++ post) = Some true) as Hrec.
  { unfold records, keyword_hit. rewrite lower_ascii by done.
    rewrite !map_app, Hlow.
    assert (existsb (fun k0 => contains k0 (map ascii_lower pre ++ k
                                            ++ map ascii_lower post))
              action_keywords = true) as ->; [|done].
    apply existsb_exists. exists k. split; [by apply list_elem_of_In|].
    apply contains_app. }
  split; [done|]. intros text Hin.
  destruct (_extract_actions_eq text) as [Hs _].
  eexists. split; [exact Hs|]. by apply list_elem_of_filter.
Qed.

End DedupExtras.

(** ** What the imperative pattern accepts *)

Lemma startswith_inv (s l : str) :
  startswith s l = true -> s = l ++ drop (length l) s.
Proof.
  revert s. induction l as [|a l IH]; intros s; [done|].
  destruct s as [|c s]; [done|]. cbn [startswith].
  intros [->%N.eqb_eq Hs]%andb_prop. cbn [app length drop]. f_equal. by apply IH.
Qed.

Lemma run_Repeat_elem p lo st m :
  m ∈ run (Repeat p lo None) st ->
  exists k, (lo <= k)%nat
            /\ Forall (fun c => p c = true) (take k (rest st))
            /\ rest st = take k (rest st) ++ rest m
            /\ (k <= length (rest st))%nat.
Proof.
  cbn [run cap]. intros (k & -> & Hk%elem_of_countdown)%list_elem_of_fmap.
  exists k. split_and!; [lia|apply run_length_take; lia| |].
  - cbn [advance rest]. by rewrite take_drop.
  - clear -Hk. destruct Hk as [_ Hk]. etrans; [exact Hk|].
    generalize (rest st). intros s. induction s as [|c s IH]; cbn; [lia|].
    destruct (p c); lia.
Qed.

Lemma run_Cat_inv r1 r2 st m :
  m ∈ run (Cat r1 r2) st -> exists m1, m1 ∈ run r1 st /\ m ∈ run r2 m1.
Proof.
  cbn [run]. intros (m1 & Hm & Hm1)%list_elem_of_bind. eauto.
Qed.

Lemma run_Group_elem n r st m :
  m ∈ run (Group n r) st -> exists m', m' ∈ run r st /\ rest m = rest m'.
Proof. cbn [run]. intros (m' & -> & Hm)%list_elem_of_fmap. eauto. Qed.

Lemma run_Class_elem p st m :
  m ∈ run (Class_ p) st ->
  exists c, p c = true /\ rest st = c :: rest m.
Proof.
  cbn [run]. destruct (rest st) as [|c t] eqn:E; [by intros ?%elem_of_nil|].
  destruct (p c) eqn:Hc; [|by intros ?%elem_of_nil].
  intros ->%list_elem_of_singleton. exists c. split; [done|].
  cbn [advance rest]. by rewrite E.
Qed.

(** A repetition with at least one round leaves a non-empty piece behind. *)
Lemma run_Repeat1_elem p st m :
  m ∈ run (Repeat p 1 None) st ->
  exists c w, p c = true /\ Forall (fun c => p c = true) w
              /\ rest st = (c :: w) ++ rest m.
Proof.
  intros (k & Hk & Fk & Hr & Hlen)%run_Repeat_elem.
  destruct (take k (rest st)) as [|c w] eqn:E.
  - apply (f_equal length) in E. rewrite length_take in E. cbn in E. lia.
  - inversion Fk; subst. eauto.
Qed.

Lemma please_group_elem st m :
  m ∈ run please_group st ->
  exists s ws,
    is_space s = true /\ Forall (fun c => is_space c = true) ws
    /\ rest st = lit "please" ++ (s :: ws) ++ rest m.
Proof.
  intros (m' & Hm' & ->)%run_Group_elem. cbn [run] in Hm'.
  apply list_elem_of_bind in Hm' as (m0 & Hm' & Hm0).
  destruct (startswith (rest st) (lit "please")) eqn:Hs;
    [|by apply elem_of_nil in Hm0].
  apply list_elem_of_singleton in Hm0 as ->.
  apply (run_Repeat1_elem is_space) in Hm' as (s & ws & Hsp & Fws & Hr).
  exists s, ws. split_and!; try done.
  rewrite (startswith_inv _ _ Hs) at 1. f_equal. exact Hr.
Qed.

Lemma word_group_elem st m :
  m ∈ run word_group st ->
  exists c w, is_alpha c = true /\ Forall (fun c => is_alpha c = true) w
              /\ rest st = (c :: w) ++ rest m.
Proof.
  intros (m' & Hm' & ->)%run_Group_elem.
  by apply (run_Repeat1_elem is_alpha) in Hm'.
Qed.

Lemma imperative_re_elem line m :
  m ∈ run imperative_re (MState 0 line []) -> word_space_letter line.
Proof.
  unfold imperative_re.
  intros (m3 & (m2 & Hm2 & Hm3)%run_Cat_inv & Hm)%run_Cat_inv.
  rewrite token_re_unfold in Hm2.
  apply elem_of_app in Hm2 as [(m1 & Hm2 & Hm1)%list_elem_of_bind|Hm2].
  - apply please_group_elem in Hm1 as (s & ws & Hs & Fws & Hr1).
    apply word_group_elem in Hm2 as (c & w & Hc & Fw & Hr2).
    cbn [rest] in Hr1. rewrite Hr2 in Hr1.
    exists (lit "please"), (s :: ws), c, (w ++ rest m2).
    split_and!; try done.
    + by repeat constructor.
    + by constructor.
  - apply word_group_elem in Hm2 as (a & w & Ha & Fw & Hr2).
    apply run_Group_elem in Hm3 as (m3' & Hm3 & E3).
    apply (run_Repeat1_elem is_space) in Hm3 as (s & ws & Hs & Fws & Hr3).
    apply run_Class_elem in Hm as (c & Hc & Hr).
    cbn [rest] in Hr2. rewrite Hr3, <- E3, Hr in Hr2.
    exists (a :: w), (s :: ws), c, (rest m).
    split_and!; try done; by constructor.
Qed.

(** The first word of a line of that shape is [please] exactly when the
    optional group can match. *)
Lemma please_group_first_word line w ws c tl :
  line = w ++ ws ++ c :: tl ->
  Forall (fun c => is_alpha c = true) w ->
  ws <> [] -> Forall (fun c => is_space c = true) ws ->
  w <> lit "please" ->
  run please_group (MState 0 line []) = [].
Proof.
  intros Hl Fw Hws Fws Hne.
  destruct (run please_group (MState 0 line [])) as [|m ms] eqn:E; [done|].
  exfalso. apply Hne.
  destruct (please_group_elem (MState 0 line []) m)
    as (s & ws' & Hs & _ & Hr); [rewrite E; left|].
  cbn [rest] in Hr.
  assert (run_length is_alpha line = length w) as H1.
  { rewrite Hl. apply run_length_app; [done|].
    destruct ws as [|x ws]; [done|]. intros ? [= <-].
    apply is_space_not_alpha. by inversion Fws. }
  assert (run_length is_alpha line = length (lit "please")) as H2.
  { rewrite Hr. apply run_length_app; [by repeat constructor|].
    intros ? [= <-]. by apply is_space_not_alpha. }
  assert (take (length w) line = w) as Hw by (by rewrite Hl, take_app_length).
  rewrite <- Hw, <- H1, H2, Hr. by rewrite take_app_length.
Qed.

Section ImperativeExtras.
Context `{Lower}.

Lemma imperative_re_match_intro line :
  word_space_letter line -> is_Some (re_match imperative_re line).
Proof.
  intros (w & ws & c & tl & Hl & Hw & Fw & Hws & Fws & Hc). unfold re_match.
  destruct (word_gap_letter (MState 0 line []) w ws c tl) as [m Hm]; try done.
  apply word_path_imperative in Hm.
  destruct (run imperative_re (MState 0 line [])); [|by eexists].
  by apply elem_of_nil in Hm.
Qed.

Lemma imperative_re_match_inv line :
  is_Some (re_match imperative_re line) -> word_space_letter line.
Proof.
  unfold re_match. intros [m Hm%head_Some_elem_of].
  by eapply imperative_re_elem.
Qed.

Lemma imperative_no_match line :
  ~ word_space_letter line -> imperative line = Some false.
Proof.
  intros Hn. unfold imperative.
  destruct (re_match imperative_re line) eqn:E; [|done].
  exfalso. apply Hn, imperative_re_match_inv. by eexists.
Qed.

(** X12.  The imperative pattern matches a line exactly when the line
    begins with a word of ASCII letters, followed by whitespace, followed
    by an ASCII letter; on every other line the heuristic answers no. *)
Theorem imperative_re_matches_iff (line : str) :
  (is_Some (re_match imperative_re line) <-> word_space_letter line)
  /\ (~ word_space_letter line -> imperative line = Some false).
Proof.
  split; [split|].
  - apply imperative_re_match_inv.
  - apply imperative_re_match_intro.
  - apply imperative_no_match.
Qed.

(** X13.  The first-word rule.  On a line made of a word [w] of ASCII
    letters other than [please], whitespace, and text starting with an
    ASCII letter, the heuristic answers yes exactly when [w], lower-cased,
    ends in e, d, n or y; the line is recorded when that holds or a
    keyword occurs in it. *)
Theorem first_word_decides (w ws tl : str) (c : char) :
  w <> [] -> Forall (fun c => is_alpha c = true) w ->
  ws <> [] -> Forall (fun c => is_space c = true) ws ->
  is_alpha c = true ->
  w <> lit "please" ->
  let line := w ++ ws ++ c :: tl in
  imperative line = Some (ends_edny (lower w))
  /\ records line = Some (keyword_hit line || ends_edny (lower w)).
Proof.
  intros Hw Fw Hws Fws Hc Hne line.
  assert (imperative line = Some (ends_edny (lower w))) as Hi.
  { apply imperative_word.
    - apply imperative_re_match_intro. exists w, ws, c, tl. done.
    - unfold re_match. rewrite token_re_unfold.
      rewrite (please_group_first_word line w ws c tl) by done.
      cbn [mbind list_bind app].
      destruct (word_group_head (MState 0 line []) w (ws ++ c :: tl))
        as (m & Hm & Hg & _); try done; [|eauto].
      destruct ws as [|s ws']; [done|]. intros ? [= <-].
      apply is_space_not_alpha. by inversion Fws. }
  split; [done|]. unfold records. by destruct (keyword_hit line).
Qed.

(** X14.  What is never recorded: a line in which no keyword occurs and
    which does not begin with an ASCII letter, or holds no whitespace at
    all (a single word, say). *)
Theorem never_recorded (line : str) :
  keyword_hit line = false ->
  (forall c, head line = Some c -> is_alpha c = false)
  \/ Forall (fun c => is_space c = false) line ->
  records line = Some false.
Proof.
  intros Hk Hshape. unfold records. rewrite Hk.
  apply imperative_no_match.
  intros (w & ws & c & tl & Hl & Hw & Fw & Hws & Fws & Hc).
  destruct Hshape as [Hh|Hns].
  - destruct w as [|a w]; [done|]. rewrite Hl in Hh.
    specialize (Hh a eq_refl). inversion Fw; subst. congruence.
  - destruct ws as [|s ws]; [done|]. rewrite Hl in Hns.
    apply Forall_app in Hns as [_ Hns]. inversion Hns; subst.
    inversion Fws; subst. congruence.
Qed.

End ImperativeExtras.

(** ** Bullet decoration *)

Lemma lstrip_by_drop p (pre s : str) :
  Forall (fun c => p c = true) pre -> lstrip_by p (pre ++ s) = lstrip_by p s.
Proof. induction 1 as [|c pre Hc _ IH]; cbn [app lstrip_by]; [done|]. by rewrite Hc. Qed.

Lemma rstrip_by_drop p (s post : str) :
  Forall (fun c => p c = true) post -> rstrip_by p (s ++ post) = rstrip_by p s.
Proof.
  intros F. unfold rstrip_by. rewrite reverse_app.
  rewrite lstrip_by_drop; [done|]. by apply Forall_reverse.
Qed.

Lemma lstrip_by_app_some p (s t : str) :
  Exists (fun c => p c = false) s ->
  lstrip_by p (s ++ t) = lstrip_by p s ++ t.
Proof.
  induction 1 as [c s Hc|c s _ IH]; cbn [app lstrip_by].
  - by rewrite Hc.
  - by destruct (p c).
Qed.

(** Stripped characters put around a text are stripped with the rest. *)
Lemma strip_by_decorate p (pre s post : str) :
  Forall (fun c => p c = true) pre -> Forall (fun c => p c = true) post ->
  strip_by p (pre ++ s ++ post) = strip_by p s.
Proof.
  intros Fpre Fpost. unfold strip_by. rewrite lstrip_by_drop by done.
  destruct (decide (Forall (fun c => p c = true) s)) as [Fs|Es].
  - rewrite (lstrip_by_all p (s ++ post)) by (by apply Forall_app).
    by rewrite (lstrip_by_all p s).
  - apply not_Forall_Exists in Es; [|apply _]. rewrite lstrip_by_app_some.
    + by apply rstrip_by_drop.
    + eapply Exists_impl; [exact Es|]. intros c Hc. cbn in Hc.
      by destruct (p c).
Qed.

(** A text without line break is its own single line. *)
Lemma splitlines_go_single after cur s :
  Forall (fun c => is_linebreak c = false) s -> cur ++ s <> [] ->
  (after = true -> forall c, head s = Some c -> c <> LF) ->
  splitlines_go after cur s = [cur ++ s].
Proof.
  intros F. revert after cur.
  induction F as [|c s Hc _ IH]; intros after cur Hne Hlf;
    cbn [splitlines_go].
  - rewrite app_nil_r in *. by destruct cur.
  - assert (after && (c =? LF) = false) as ->.
    { destruct after; [|done]. cbn. apply N.eqb_neq. by apply Hlf. }
    rewrite Hc. rewrite IH.
    + by rewrite <- app_assoc.
    + rewrite <- app_assoc. done.
    + done.
Qed.

Lemma splitlines_single (s : str) :
  Forall (fun c => is_linebreak c = false) s -> s <> [] -> splitlines s = [s].
Proof. intros F Hne. by apply (splitlines_go_single false []). Qed.

Lemma is_bullet_not_linebreak c : is_bullet c -> is_linebreak c = false.
Proof.
  unfold is_bullet, in_chars, bullet_chars. cbn [existsb].
  rewrite !orb_true_iff, !N.eqb_eq. by intros [?|[?|[?|[?|?]]]]; subst.
Qed.

Lemma nonblank_app_middle (pre s post : str) :
  nonblank s -> nonblank (pre ++ s ++ post).
Proof.
  unfold nonblank. rewrite !Exists_exists. intros (c & Hc & Hs).
  exists c. split; [|done]. rewrite !elem_of_app. auto.
Qed.

Section BulletExtras.
Context `{Lower}.

(** The stripped lines of a one-line text. *)
Lemma stripped_lines_single (s : str) :
  Forall (fun c => is_linebreak c = false) s -> nonblank s ->
  stripped_lines s = [strip_chars bullet_chars s].
Proof.
  intros F Hnb. unfold stripped_lines.
  rewrite splitlines_single; [|done|].
  - rewrite filter_cons_True by (by apply strip_nonblank). done.
  - intros ->. by apply Exists_nil in Hnb.
Qed.

(** X15.  Bullet decoration does not matter.  Putting spaces, hyphens,
    bullets or tabs before and after a one-line text that is not blank
    leaves the extracted actions unchanged. *)
Theorem bullet_decoration_ignored (pre l post : str) :
  Forall is_bullet pre -> Forall is_bullet post ->
  Forall (fun c => is_linebreak c = false) l -> nonblank l ->
  _extract_actions (pre ++ l ++ post) = _extract_actions l.
Proof.
  intros Fpre Fpost Fl Hnb.
  assert (nonblank (pre ++ l ++ post)) as Hnb'
    by (by apply nonblank_app_middle).
  assert (stripped_lines (pre ++ l ++ post) = stripped_lines l) as Hlines.
  { rewrite !stripped_lines_single; try done.
    - unfold strip_chars. by rewrite strip_by_decorate.
    - apply Forall_app. split; [|apply Forall_app; split; [done|]].
      + eapply Forall_impl; [exact Fpre|]. apply is_bullet_not_linebreak.
      + eapply Forall_impl; [exact Fpost|]. apply is_bullet_not_linebreak. }
  unfold _extract_actions. rewrite Hlines.
  apply strip_nonblank in Hnb, Hnb'. by rewrite Hnb, Hnb'.
Qed.

End BulletExtras.

(** * The diagnostic endpoint *)

Example test_database_no_module :
  test_database {| import_db := Raise (Exc ImportErrorC (lit "No module named 'database'"));
                   environ := ∅ |}
  = Ret {| backend := OK_SIGN ++ lit " Running";
           database := NO_SIGN ++ lit " Database module not found (run enable-database first)";
           database_url := Some (NO_SIGN ++ lit " Not Set");
           database_name := Some (NO_SIGN ++ lit " Not Set");
           connection_status := lit "Not Connected";
           collections := [] |}.
Proof. reflexivity. Qed.

Example test_database_working :
  test_database
    {| import_db := Ret (Some {| db_name := Ret (Some (lit "prod"));
                                 db_list_collection_names :=
                                   Ret [lit "users"; lit "notes"] |});
       environ := {[ lit "DATABASE_URL" := lit "mongodb://h" ]} |}
  = Ret {| backend := OK_SIGN ++ lit " Running";
           database := OK_SIGN ++ lit " Connected & Working";
           database_url := Some (OK_SIGN ++ lit " Set");
           database_name := Some (NO_SIGN ++ lit " Not Set");
           connection_status := lit "Connected";
           collections := [lit "users"; lit "notes"] |}.
Proof. by vm_compute. Qed.

(** What the body of the [try] does to the response: it leaves [backend]
    alone; [collections] is empty or the first ten names listed, with the
    messages of success; and the exception it ends with, if any, is one
    the world raised. *)
Lemma try_import_spec w :
  let r := (try_import w initial_response).1 in
  let raised := (try_import w initial_response).2 in
  backend r = backend initial_response
  /\ (length (database r) <= 75)%nat
  /\ (collections r = []
      \/ exists db cs,
           import_db w = Ret (Some db)
           /\ db_list_collection_names db = Ret cs
           /\ collections r = take 10 cs
           /\ raised = None
           /\ connection_status r = lit "Connected"
           /\ database r = OK_SIGN ++ lit " Connected & Working")
  /\ (connection_status r = lit "Connected"
      /\ (exists db name, import_db w = Ret (Some db) /\ db_name db = Ret name)
      \/ connection_status r = lit "Not Connected"
         /\ ~ (exists db name, import_db w = Ret (Some db) /\ db_name db = Ret name))
  /\ (forall e, raised = Some e ->
        import_db w = Raise e
        \/ exists db, import_db w = Ret (Some db)
                      /\ (db_name db = Raise e
                          \/ db_list_collection_names db = Raise e
                             /\ is_Exception e = false)).
Proof.
  unfold try_import.
  destruct (import_db w) as [[db|]|e] eqn:Ei; cbn.
  - destruct (db_name db) as [name|e] eqn:En; cbn.
    + destruct (db_list_collection_names db) as [cs|e] eqn:El.
      * cbn. split_and!; [done|lia| |left; split; [done|eauto]|done].
        right. exists db, cs. done.
      * assert (length (take 50 (exc_str e)) <= 50)%nat as Ht
          by (rewrite length_take; lia).
        set (t := take 50 (exc_str e)) in *. clearbody t.
        destruct (is_Exception e) eqn:Ee; cbn.
        -- split_and!; [done|lia|by left|left; split; [done|eauto]|done].
        -- split_and!; [done|lia|by left|left; split; [done|eauto]|].
           intros ? [= <-]. right. exists db. split; [done|]. by right.
    + split_and!; [done|lia|by left| |].
      * right. split; [done|]. intros (db' & name & [= <-] & Hn). congruence.
      * intros ? [= <-]. right. exists db. split; [done|]. by left.
  - split_and!; [done|lia|by left| |done].
    right. split; [done|]. by intros (db' & name & [=] & _).
  - split_and!; [done|lia|by left| |].
    + right. split; [done|]. by intros (db' & name & [=] & _).
    + intros ? [= <-]. by left.
Qed.

(** X16.  The diagnostic response tells of the environment only whether
    [DATABASE_URL] and [DATABASE_NAME] are set to a non-empty value: the
    fields [database_url] and [database_name] are overwritten last, so the
    name of the database, read from [db.name], is never reported.
    [backend] always says the backend runs. *)
Theorem test_database_env_fields (w : world) (r : db_response) :
  test_database w = Ret r ->
  backend r = OK_SIGN ++ lit " Running"
  /\ database_url r = Some (env_flag w (lit "DATABASE_URL"))
  /\ database_name r = Some (env_flag w (lit "DATABASE_NAME"))
  /\ (forall key, env_flag w key = OK_SIGN ++ lit " Set"
                  <-> exists v, environ w !! key = Some v /\ v <> []).
Proof.
  intros Hr. unfold test_database in Hr.
  destruct (try_import_spec w) as (Hb & _).
  destruct (try_import w initial_response) as [r0 raised]. cbn in Hb.
  assert (forall key, env_flag w key = OK_SIGN ++ lit " Set"
                      <-> exists v, environ w !! key = Some v /\ v <> [])
    as Hflag.
  { intros key. unfold env_flag.
    destruct (environ w !! key) as [[|c v]|]; cbn; split; try done.
    - by intros (? & [= <-] & ?).
    - intros _. by eexists.
    - by intros (? & [=] & _). }
  destruct raised as [e|]; [destruct (exc_cls e)|];
    simplify_eq; cbn; by rewrite ?Hb.
Qed.

(** X17.  The diagnostic response lists at most 10 collections; when it
    lists any, they are the first names [db.list_collection_names()]
    returned, the status is ["Connected"] and the database is reported as
    connected and working. *)
Theorem test_database_collections (w : world) (r : db_response) :
  test_database w = Ret r ->
  (length (collections r) <= 10)%nat
  /\ (collections r = []
      \/ exists db cs,
           import_db w = Ret (Some db)
           /\ db_list_collection_names db = Ret cs
           /\ collections r = take 10 cs
           /\ connection_status r = lit "Connected"
           /\ database r = OK_SIGN ++ lit " Connected & Working").
Proof.
  intros Hr. unfold test_database in Hr.
  destruct (try_import_spec w) as (_ & _ & Hc & Hs & _).
  destruct (try_import w initial_response) as [r0 raised]. cbn in Hc, Hs.
  assert (collections r = collections r0
          /\ connection_status r = connection_status r0
          /\ (raised = None -> database r = database r0)) as (Ec & Es & Ed).
  { destruct raised as [e|]; [destruct (exc_cls e)|]; by simplify_eq. }
  rewrite Ec, Es.
  destruct Hc as [Hc|(db & cs & Hi & Hl & Hc & Hn & Hst & Hd)].
  - rewrite Hc. split; [cbn; lia|by left].
  - split; [rewrite Hc, length_take; lia|]. right. exists db, cs.
    split_and!; try done. by rewrite Ed.
Qed.

(** X18.  The diagnostic endpoint swallows every [Exception] of the
    import, of [db.name] and of [db.list_collection_names()]: what it lets
    through is an exception outside [Exception], raised by one of the
    three. *)
Theorem test_database_swallows_exceptions (w : world) :
  (exists r, test_database w = Ret r)
  \/ (exists e,
        test_database w = Raise e
        /\ is_Exception e = false
        /\ (import_db w = Raise e
            \/ exists db, import_db w = Ret (Some db)
                          /\ (db_name db = Raise e
                              \/ db_list_collection_names db = Raise e))).
Proof.
  unfold test_database.
  destruct (try_import_spec w) as (_ & _ & _ & _ & He).
  destruct (try_import w initial_response) as [r0 [e|]]; cbn in He;
    [|left; by eexists].
  specialize (He e eq_refl). unfold is_Exception.
  destruct (exc_cls e) eqn:Ec; [left; by eexists|left; by eexists|].
  right. exists e. rewrite Ec. split_and!; [done|done|].
  destruct He as [?|(db & ? & [?|[? _]])]; [by left|right..]; eauto.
Qed.

(** X19.  In the diagnostic response the [database] message has at most 75
    characters, an error text being cut at 50; and the status is
    ["Connected"] exactly when the import gave an object [db] other than
    [None] whose attribute [name] could be looked up, ["Not Connected"]
    otherwise. *)
Theorem test_database_status (w : world) (r : db_response) :
  test_database w = Ret r ->
  (length (database r) <= 75)%nat
  /\ (connection_status r = lit "Connected"
      \/ connection_status r = lit "Not Connected")
  /\ (connection_status r = lit "Connected"
      <-> exists db name, import_db w = Ret (Some db) /\ db_name db = Ret name).
Proof.
  intros Hr. unfold test_database in Hr.
  destruct (try_import_spec w) as (_ & Hlen & _ & Hs & _).
  destruct (try_import w initial_response) as [r0 raised]. cbn in Hlen, Hs.
  assert (connection_status r = connection_status r0
          /\ (length (database r) <= 75)%nat) as (Es & Hl).
  { destruct raised as [e|]; [|by simplify_eq].
    assert (length (take 50 (exc_str e)) <= 50)%nat as Ht
      by (rewrite length_take; lia).
    set (t := take 50 (exc_str e)) in *. clearbody t.
    destruct (exc_cls e); simplify_eq; cbn; (split; [done|lia]). }
  rewrite Es. split; [done|].
  destruct Hs as [[-> Hex]|[-> Hn]].
  - split; [by left|]. done.
  - split; [by right|]. split; [by intros ?%(f_equal length)|done].
Qed.

Lemma test_database_env_fields_witness :
  exists r,
    test_database world_twelve_collections = Ret r
    /\ database_name r = Some (NO_SIGN ++ lit " Not Set").
Proof.
  set (r := match test_database world_twelve_collections with
            | Ret r => r | Raise _ => initial_response end).
  assert (test_database world_twelve_collections = Ret r) as Hr
    by reflexivity.
  exists r. split; [exact Hr|].
  exact (proj1 (proj2 (proj2
           (test_database_env_fields world_twelve_collections r Hr)))).
Defined.

Lemma test_database_collections_witness :
  exists r,
    test_database world_twelve_collections = Ret r
    /\ (length (collections r) <= 10)%nat.
Proof.
  set (r := match test_database world_twelve_collections with
            | Ret r => r | Raise _ => initial_response end).
  assert (test_database world_twelve_collections = Ret r) as Hr
    by reflexivity.
  exists r. split; [exact Hr|].
  exact (proj1 (test_database_collections world_twelve_collections r Hr)).
Defined.

Lemma test_database_status_witness :
  exists r,
    test_database world_long_error = Ret r
    /\ (length (database r) <= 75)%nat.
Proof.
  set (r := match test_database world_long_error with
            | Ret r => r | Raise _ => initial_response end).
  assert (test_database world_long_error = Ret r) as Hr by reflexivity.
  exists r. split; [exact Hr|].
  exact (proj1 (test_database_status world_long_error r Hr)).
Defined.

(** * Further properties: truncation and the language tag *)

Section MoreExtras.
Context `{Lower}.

(** Without case-insensitive duplicates the second loop copies its input. *)
Lemma dedup_loop_nodup actions :
  forall done seen deduped,
    (forall k, k ∈ seen <-> k ∈ lower <$> done) ->
    NoDup (lower <$> (done ++ actions)) ->
    dedup_loop actions seen deduped = deduped ++ actions.
Proof.
  induction actions as [|a actions IH]; intros done seen deduped Hseen Hnd;
    cbn [dedup_loop]; [by rewrite app_nil_r|].
  assert (lower a ∉ seen) as Hk.
  { rewrite Hseen. rewrite fmap_app in Hnd.
    apply NoDup_app in Hnd as (_ & Hdis & _). intros Hin.
    apply (Hdis _ Hin). cbn. left. }
  rewrite decide_False by done.
  rewrite (IH (done ++ [a])).
  - by rewrite <- app_assoc.
  - intros k. rewrite fmap_app, elem_of_app, elem_of_union,
      elem_of_singleton, <- Hseen. cbn. rewrite list_elem_of_singleton. tauto.
  - by rewrite <- app_assoc.
Qed.

(** X20.  When no two recorded candidates have the same lower-cased
    content, the actions are the first ten candidates, in their order. *)
Theorem distinct_candidates_first_ten (text a : str) (cands : list str) :
  scan_lines (stripped_lines text) [] = Some (a :: cands) ->
  NoDup (lower <$> (a :: cands)) ->
  _extract_actions text = Some (take 10 (a :: cands)).
Proof.
  intros Hscan Hnd. destruct (_extract_actions_eq text) as [Hs He].
  rewrite Hs in Hscan. injection Hscan as Hc. rewrite Hc in He.
  rewrite He. cbn [truthy negb andb].
  rewrite (dedup_loop_nodup (a :: cands) [] ∅ []); [done| |done].
  intros k. cbn. by rewrite elem_of_nil, elem_of_empty.
Qed.

(** X21.  Which languages are tagged.  For a language code written in
    ASCII the prefix is ["[Telugu] "] when the code begins with [t] or [T]
    followed by [e] or [E], and empty otherwise, the empty code
    included. *)
Theorem telugu_tag_iff (lang : str) :
  Forall is_ascii lang ->
  (prefix_for lang = telugu_tag
   <-> exists a b tl, lang = a :: b :: tl
                      /\ (a = 116 \/ a = 84) /\ (b = 101 \/ b = 69))
  /\ (prefix_for lang = telugu_tag \/ prefix_for lang = []).
Proof.
  intros Hascii. split; [|apply prefix_for_cases].
  assert (forall c x : N, 97 <= x <= 122 ->
            (ascii_lower c =? x) = true <-> c = x \/ c = x - 32) as Hlow.
  { intros c x Hx. unfold ascii_lower. rewrite N.eqb_eq.
    destruct ((65 <=? c) && (c <=? 90)) eqn:E.
    - apply andb_prop in E as [?%N.leb_le ?%N.leb_le]. lia.
    - apply andb_false_iff in E as [?%N.leb_gt|?%N.leb_gt]; lia. }
  assert (([] : list N) <> telugu_tag) as Hnil by (by vm_compute).
  unfold prefix_for, or_else.
  change (lit "te") with [116; 101]. change (lit "en") with [101; 110].
  destruct lang as [|a [|b tl]]; cbn [truthy].
  - rewrite lower_ascii by (repeat constructor; by vm_compute).
    change (startswith _ _) with false.
    split; [done|]. by intros (? & ? & ? & [=] & _).
  - rewrite lower_ascii by done. cbn [map startswith].
    rewrite andb_false_r.
    split; [done|]. by intros (? & ? & ? & [=] & _).
  - rewrite lower_ascii by done. cbn [map startswith].
    assert (startswith (map ascii_lower tl) [] = true) as ->
      by (by destruct tl).
    rewrite andb_true_r.
    destruct (ascii_lower a =? 116) eqn:Ea, (ascii_lower b =? 101) eqn:Eb;
      cbn [andb].
    + split; [intros _|done]. exists a, b, tl.
      apply Hlow in Ea, Eb; [|lia..]. split; [done|]. split; lia.
    + split; [done|]. intros (a' & b' & tl' & [= <- <- <-] & _ & Hb).
      assert ((ascii_lower b =? 101) = true) by (apply Hlow; lia). congruence.
    + split; [done|]. intros (a' & b' & tl' & [= <- <- <-] & Ha & _).
      assert ((ascii_lower a =? 116) = true) by (apply Hlow; lia). congruence.
    + split; [done|]. intros (a' & b' & tl' & [= <- <- <-] & Ha & _).
      assert ((ascii_lower a =? 116) = true) by (apply Hlow; lia). congruence.
Qed.

End MoreExtras.

Lemma distinct_candidates_first_ten_witness :
  _extract_actions (lit "Call Bob" ++ [LF] ++ lit "Send it")
  = Some (take 10 [lit "Call Bob"; lit "Send it"]).
Proof.
  apply distinct_candidates_first_ten.
  - by vm_compute.
  - apply (bool_decide_unpack _). by vm_compute.
Defined.

Lemma telugu_tag_iff_witness :
  prefix_for (lit "Te-IN") = telugu_tag
  <-> exists a b tl, lit "Te-IN" = a :: b :: tl
                     /\ (a = 116 \/ a = 84) /\ (b = 101 \/ b = 69).
Proof.
  apply telugu_tag_iff. by repeat constructor.
Defined.

(** * Instances of the properties that have hypotheses *)

Lemma summary_is_leading_sentence_witness :
  _heuristic_summary (lit "Send the report today.  Thanks") (lit "en")
  = Some (prefix_for (lit "en") ++ lit "Send the report today" ++ [46]).
Proof.
  apply (summary_is_leading_sentence
           (lit "Send the report today.  Thanks") (lit "en")
           (lit "Send the report today") (lit " Thanks") 46).
  - by vm_compute.
  - by repeat constructor.
  - vm_compute. lia.
  - reflexivity.
Defined.

Lemma summary_is_whole_short_text_witness :
  _heuristic_summary (lit "  hello   world ") (lit "te")
  = Some (prefix_for (lit "te") ++ cleaned (lit "  hello   world ")).
Proof.
  apply summary_is_whole_short_text.
  - by repeat constructor.
  - right. right. by left.
  - vm_compute. lia.
Defined.

Lemma first_candidate_leads_witness :
  exists acts,
    _extract_actions (lit "Call Bob" ++ [LF] ++ lit "call bob" ++ [LF] ++ lit "Send it")
    = Some acts
    /\ head acts = Some (lit "Call Bob").
Proof.
  apply (first_candidate_leads _ _ [lit "call bob"; lit "Send it"]).
  by vm_compute.
Defined.

Lemma candidates_all_represented_witness :
  exists acts,
    _extract_actions (lit "Call Bob" ++ [LF] ++ lit "call bob" ++ [LF] ++ lit "Send it")
    = Some acts
    /\ forall a,
         a ∈ [lit "Call Bob"; lit "call bob"; lit "Send it"] ->
         exists d, d ∈ acts /\ lower d = lower a.
Proof.
  apply candidates_all_represented.
  - by vm_compute.
  - vm_compute. lia.
Defined.

Lemma keyword_line_recorded_witness :
  records (lit "re" ++ lit "CALL" ++ lit "ed it") = Some true.
Proof.
  apply (keyword_line_recorded (lit "call") (lit "re") (lit "CALL") (lit "ed it")).
  - apply list_elem_of_In. vm_compute. tauto.
  - reflexivity.
  - by repeat constructor.
Defined.

Lemma first_word_decides_witness :
  imperative (lit "Send" ++ lit " " ++ 105 :: lit "t")
  = Some (ends_edny (lower (lit "Send"))).
Proof.
  apply (first_word_decides (lit "Send") (lit " ") (lit "t") 105).
  - done.
  - by repeat constructor.
  - done.
  - by repeat constructor.
  - reflexivity.
  - done.
Defined.

Lemma never_recorded_witness :
  records (lit "12 apples") = Some false.
Proof.
  apply never_recorded.
  - by vm_compute.
  - left. by intros ? [= <-].
Defined.

Lemma bullet_decoration_ignored_witness :
  _extract_actions (lit "- " ++ lit "Call Bob" ++ lit " -")
  = _extract_actions (lit "Call Bob").
Proof.
  apply bullet_decoration_ignored.
  - by repeat constructor.
  - by repeat constructor.
  - by repeat constructor.
  - by left.
Defined.
